(** * Playlist synchronisation over a spreadsheet: the Google Sheets service

    A shallow embedding of [services/googleSheets.ts] (rate limiter, Reader,
    Writer and the four mutations) together with the part of
    [services/googleAuth.ts] the Writer consults, and the properties of the
    specification that concern them.

    Conventions of the embedding:
    - a JavaScript [number] that holds an index, a status code or a
      millisecond timestamp is a [Z];
    - an [async] function is a state transformer over a [World] that either
      returns a value or throws ([Async]); [await] is sequencing;
    - [console.log]/[console.error] have no effect on any value and are left
      out;
    - the interleaving of several pending calls of [rateLimitedFetch] is
      modelled separately, in [Module EventLoop], by the steps of the single
      thread: the part of the function before its [await] and the part after
      it. *)

From Stdlib Require Import ZArith List String Ascii Bool Lia Permutation Sorted.
From Stdlib Require Import DecimalString.
Import ListNotations.

Local Open Scope string_scope.
Local Open Scope list_scope.

(** ** Data model *)

(** [interface PlaylistItem { songId: string; selected: boolean; order: number }] *)
Record PlaylistItem : Type := mkPlaylistItem {
  songId : string;
  selected : bool;
  order : Z
}.

(** A row of the sheet is a [string[]]; the value matrix of the range is a
    [string[][]]. *)
Definition Row : Type := list string.
Definition Sheet : Type := list Row.

(** ** The transport ([fetch]) *)

Inductive Method : Type := GET | PUT.

(** [fetch(url, options)]: the method, the url, the [Authorization] header and
    the JSON body [{ values }] of [options]. *)
Record Request : Type := mkRequest {
  req_method : Method;
  req_url : string;
  req_authorization : option string;
  req_values : option Sheet
}.

(** What [response.json()] gives: a rejection when the body is not JSON, else
    the parsed object, of which only the optional [values] member is read. *)
Inductive JsonBody : Type :=
| BadJson
| Json (values : option Sheet).

Record Response : Type := mkResponse {
  status : Z;
  json : JsonBody
}.

(** [response.ok]: the status is in the range 200-299. *)
Definition ok (r : Response) : bool :=
  ((200 <=? status r) && (status r <=? 299))%Z.

(** The promise returned by [fetch] rejects on a network failure and resolves
    with a [Response] otherwise (also for a non-success status). *)
Inductive FetchResult : Type :=
| Rejected
| Resolved (r : Response).

(** What can be thrown. *)
Inductive Exn : Type :=
| Error (message : string)
| FetchFailed
| JsonSyntaxError.

(** ** Module state of [googleAuth.ts] *)

Record User : Type := mkUser {
  user_id : string;
  user_email : string;
  user_credential : string
}.

(** [let isInitialized = false; let currentUser: any = null;
     let accessToken: string | null = null;] *)
Record AuthState : Type := mkAuthState {
  isInitialized : bool;
  currentUser : option User;
  accessToken : option string
}.

(** Truthiness of a [string | null]: [null] and the empty string are falsy. *)
Definition truthy (o : option string) : bool :=
  match o with
  | Some s => negb (s =? "")
  | None => false
  end.

(** [isInitialized && !!(currentUser && accessToken)] *)
Definition isGapiReady (a : AuthState) : bool :=
  isInitialized a &&
  (match currentUser a with Some _ => truthy (accessToken a) | None => false end).

Definition getAccessToken (a : AuthState) : option string := accessToken a.

(** ** The world an [async] call runs in *)

(** The clock read by [Date.now()], the module variable [lastRequestTime], the
    state of the authorisation module, the remote value matrix of the range
    [Playlist!A:B], and the log of the calls of [fetch] with the time each one
    began. *)
Record World : Type := mkWorld {
  Date_now : Z;
  lastRequestTime : Z;
  auth : AuthState;
  sheet : Sheet;
  requests : list (Z * Request)
}.

(** What lies outside the program: the build-time API key and the behaviour
    of the remote end, which answers a request and may change the sheet. *)
Record Env : Type := mkEnv {
  VITE_GOOGLE_DRIVE_API_KEY : string;
  backend : Request -> Sheet -> FetchResult * Sheet
}.

Inductive Outcome (A : Type) : Type :=
| Returned (a : A)
| Thrown (e : Exn).
Arguments Returned {A} a.
Arguments Thrown {A} e.

Definition Async (A : Type) : Type := World -> Outcome A * World.

Definition ret {A} (a : A) : Async A := fun w => (Returned a, w).

Definition throw {A} (e : Exn) : Async A := fun w => (Thrown e, w).

Definition bind {A B} (m : Async A) (k : A -> Async B) : Async B :=
  fun w =>
    match m w with
    | (Returned a, w') => k a w'
    | (Thrown e, w') => (Thrown e, w')
    end.

(** [try { m } catch (error) { handler(error) }] *)
Definition try_catch {A} (m : Async A) (handler : Exn -> Async A) : Async A :=
  fun w =>
    match m w with
    | (Returned a, w') => (Returned a, w')
    | (Thrown e, w') => handler e w'
    end.

Declare Scope async_scope.
Delimit Scope async_scope with async.
Notation "x <- m ;; k" := (bind m (fun x => k))
  (at level 61, m at next level, right associativity) : async_scope.
Local Open Scope async_scope.

(** ** Constants *)

Definition SPREADSHEET_ID : string := "1lU3pCXLU1STTZVweOLVsgI8OjFZ1bkgn6CDCZIgi9CY".
Definition SHEET_NAME : string := "Playlist".
Definition RATE_LIMIT_DELAY : Z := 1000.

Definition string_of_Z (z : Z) : string := NilZero.string_of_int (Z.to_int z).

(** ** Rate limiter *)

(** First half of [rateLimitedFetch], up to the [await]: the delay to sleep
    for, if any. *)
Definition pending_delay (now last : Z) : option Z :=
  let timeSinceLastRequest := (now - last)%Z in
  if (timeSinceLastRequest <? RATE_LIMIT_DELAY)%Z
  then Some (RATE_LIMIT_DELAY - timeSinceLastRequest)%Z
  else None.

(** [await new Promise(resolve => setTimeout(resolve, ms))] when nothing else
    runs: the clock has advanced by the delay when the call resumes. *)
Definition sleep (ms : Z) (w : World) : World :=
  mkWorld (Date_now w + ms)%Z (lastRequestTime w) (auth w) (sheet w) (requests w).

(** [lastRequestTime = Date.now()] *)
Definition stamp (w : World) : World :=
  mkWorld (Date_now w) (Date_now w) (auth w) (sheet w) (requests w).

Section Service.

Variable env : Env.

(** [fetch(url, options)]: the call is logged with the time it begins, the
    remote end answers and the sheet becomes what the remote end made of it. *)
Definition fetch (req : Request) : Async Response :=
  fun w =>
    let (res, sheet') := backend env req (sheet w) in
    let w' := mkWorld (Date_now w) (lastRequestTime w) (auth w) sheet'
                      (requests w ++ [(Date_now w, req)]) in
    match res with
    | Rejected => (Thrown FetchFailed, w')
    | Resolved r => (Returned r, w')
    end.

Definition rateLimitedFetch (req : Request) : Async Response :=
  fun w =>
    let now := Date_now w in
    let w1 := match pending_delay now (lastRequestTime w) with
              | Some ms => sleep ms w
              | None => w
              end in
    fetch req (stamp w1).

(** [await response.json()] *)
Definition response_json (r : Response) : Async (option Sheet) :=
  match json r with
  | BadJson => throw JsonSyntaxError
  | Json values => ret values
  end.

(** ** Reader *)

(** [l.map((x, index) => f(x, index))], counting from [i]. *)
Fixpoint mapi_from {A B} (f : A -> nat -> B) (i : nat) (l : list A) : list B :=
  match l with
  | [] => []
  | x :: l' => f x i :: mapi_from f (S i) l'
  end.

Definition mapi {A B} (f : A -> nat -> B) (l : list A) : list B := mapi_from f 0 l.

(** [row[1] === 'TRUE' || row[1] === 'true' || row[1] === '1'];
    a missing cell is [undefined], equal to none of the three. *)
Definition selected_of_cell (c : option string) : bool :=
  match c with
  | Some s => (s =? "TRUE") || (s =? "true") || (s =? "1")
  | None => false
  end.

(** [{ songId: row[0] || '', selected: ..., order: index }] *)
Definition item_of_row (row : Row) (index : nat) : PlaylistItem :=
  mkPlaylistItem (nth 0 row "") (selected_of_cell (nth_error row 1)) (Z.of_nat index).

(** [rows.slice(1).map(...).filter(item => item.songId)] *)
Definition items_of_rows (rows : Sheet) : list PlaylistItem :=
  filter (fun item => negb (songId item =? "")) (mapi item_of_row (tl rows)).

Definition read_url : string :=
  ("https://sheets.googleapis.com/v4/spreadsheets/" ++ SPREADSHEET_ID ++ "/values/"
     ++ (SHEET_NAME ++ "!A:B") ++ "?key=" ++ VITE_GOOGLE_DRIVE_API_KEY env)%string.

Definition read_request : Request := mkRequest GET read_url None None.

Definition getPlaylistData : Async (list PlaylistItem) :=
  try_catch
    (response <- rateLimitedFetch read_request ;;
     if negb (ok response) then
       if (status response =? 403)%Z
       then throw (Error "Sheets API quota exceeded or access denied")
       else throw (Error ("HTTP error! status: " ++ string_of_Z (status response))%string)
     else
       data <- response_json response ;;
       let rows := match data with Some values => values | None => [] end in
       ret (items_of_rows rows))
    (fun _ => ret []).

(** ** Writer *)

(** [[...playlistItems].sort((a, b) => a.order - b.order)]: the sort of an
    array is stable, so among items of equal [order] the earlier stays first. *)
Fixpoint insert_by_order (x : PlaylistItem) (l : list PlaylistItem) : list PlaylistItem :=
  match l with
  | [] => [x]
  | y :: l' => if (order x <=? order y)%Z then x :: l else y :: insert_by_order x l'
  end.

Fixpoint sort_by_order (l : list PlaylistItem) : list PlaylistItem :=
  match l with
  | [] => []
  | x :: l' => insert_by_order x (sort_by_order l')
  end.

Definition header : Row := ["Song UUID"; "Selected"].

Definition row_of_item (item : PlaylistItem) : Row :=
  [songId item; if selected item then "TRUE" else "FALSE"].

(** [[['Song UUID', 'Selected'], ...sortedItems.map(...)]] *)
Definition values_of_items (playlistItems : list PlaylistItem) : Sheet :=
  header :: map row_of_item (sort_by_order playlistItems).

Definition write_url : string :=
  ("https://sheets.googleapis.com/v4/spreadsheets/" ++ SPREADSHEET_ID ++ "/values/"
     ++ (SHEET_NAME ++ "!A:B") ++ "?valueInputOption=RAW")%string.

Definition write_request (token : string) (values : Sheet) : Request :=
  mkRequest PUT write_url (Some ("Bearer " ++ token)%string) (Some values).

Definition Unauthenticated : Exn := Error "User must be signed in to make changes".

Definition updatePlaylistData (playlistItems : list PlaylistItem) : Async unit :=
  fun w =>
    if negb (isGapiReady (auth w)) then throw Unauthenticated w
    else
      try_catch
        (let values := values_of_items playlistItems in
         fun w0 =>
           match getAccessToken (auth w0) with
           | Some token =>
               if token =? "" then throw (Error "No access token available") w0
               else
                 (response <- rateLimitedFetch (write_request token values) ;;
                  if negb (ok response) then
                    if (status response =? 401)%Z
                    then throw (Error "Authentication failed. Please sign in again.")
                    else if (status response =? 403)%Z
                    then throw (Error "Permission denied. Check sheet sharing settings.")
                    else throw (Error ("HTTP error! status: " ++ string_of_Z (status response))%string)
                  else ret tt) w0
           | None => throw (Error "No access token available") w0
           end)
        (fun error => throw error) w.

(** ** Mutations *)

(** The list [addSongToPlaylist] hands to the Writer:
    [[...currentPlaylist, { songId, selected: true, order: currentPlaylist.length }]] *)
Definition added (s : string) (currentPlaylist : list PlaylistItem) : list PlaylistItem :=
  currentPlaylist ++ [mkPlaylistItem s true (Z.of_nat (List.length currentPlaylist))].

Definition addSongToPlaylist (s : string) : Async unit :=
  try_catch
    (currentPlaylist <- getPlaylistData ;;
     updatePlaylistData (added s currentPlaylist))
    (fun error => throw error).

(** [{ ...item, order: index }] *)
Definition renumber (item : PlaylistItem) (index : nat) : PlaylistItem :=
  mkPlaylistItem (songId item) (selected item) (Z.of_nat index).

(** The list [removeSongFromPlaylist] hands to the Writer:
    [currentPlaylist.filter(item => item.songId !== songId)
       .map((item, index) => ({ ...item, order: index }))] *)
Definition removed (s : string) (currentPlaylist : list PlaylistItem) : list PlaylistItem :=
  mapi renumber (filter (fun item => negb (songId item =? s)) currentPlaylist).

Definition removeSongFromPlaylist (s : string) : Async unit :=
  try_catch
    (currentPlaylist <- getPlaylistData ;;
     updatePlaylistData (removed s currentPlaylist))
    (fun error => throw error).

(** The list [toggleSongSelection] hands to the Writer for an unselected
    entry: [currentPlaylist.map(item =>
       item.songId === songId ? { ...item, selected: true } : item)] *)
Definition marked (s : string) (currentPlaylist : list PlaylistItem) : list PlaylistItem :=
  map (fun item => if songId item =? s
                   then mkPlaylistItem (songId item) true (order item)
                   else item)
      currentPlaylist.

Definition toggleSongSelection (s : string) : Async unit :=
  try_catch
    (currentPlaylist <- getPlaylistData ;;
     match find (fun item => songId item =? s) currentPlaylist with
     | Some existingItem =>
         if selected existingItem
         then removeSongFromPlaylist s
         else updatePlaylistData (marked s currentPlaylist)
     | None => addSongToPlaylist s
     end)
    (fun error => throw error).

(** The list [reorderPlaylist] hands to the Writer:
    [reorderedSongIds.map((songId, index) => ({ songId,
       selected: existingItem?.selected ?? true, order: index }))],
    where [existingItem] is
    [currentPlaylist.find(item => item.songId === songId)]. *)
Definition reordered (reorderedSongIds : list string) (currentPlaylist : list PlaylistItem)
  : list PlaylistItem :=
  mapi (fun s index =>
          let existingItem := find (fun item => songId item =? s) currentPlaylist in
          mkPlaylistItem s
            (match existingItem with Some item => selected item | None => true end)
            (Z.of_nat index))
       reorderedSongIds.

Definition reorderPlaylist (reorderedSongIds : list string) : Async unit :=
  try_catch
    (currentPlaylist <- getPlaylistData ;;
     updatePlaylistData (reordered reorderedSongIds currentPlaylist))
    (fun error => throw error).

End Service.

(** ** The remote end assumed by the properties that write and read back *)

(** Modelled from the spec: the backing store is a third-party service, not
    code of this repository.  The read endpoint answers with the rows of the
    range (a range without any row has no [values] member); the write
    endpoint accepts only a request that carries a bearer credential and then
    overwrites the whole range with the value matrix it was sent
    (full-replace write). *)
Definition spreadsheet (req : Request) (s : Sheet) : FetchResult * Sheet :=
  match req_method req with
  | GET =>
      (Resolved (mkResponse 200 (Json (match s with [] => None | _ => Some s end))), s)
  | PUT =>
      match req_authorization req, req_values req with
      | Some _, Some values => (Resolved (mkResponse 200 (Json None)), values)
      | None, _ => (Resolved (mkResponse 401 (Json None)), s)
      | Some _, None => (Resolved (mkResponse 400 (Json None)), s)
      end
  end.

Definition sheets_env (key : string) : Env := mkEnv key spreadsheet.

(** A read of the backing store has failed when the promise of [fetch]
    rejects, when the status is not a success, or when the body of a
    successful response is not JSON. *)
Definition read_failed (res : FetchResult) : bool :=
  match res with
  | Rejected => true
  | Resolved r =>
      negb (ok r) || (match json r with BadJson => true | Json _ => false end)
  end.

(** The value matrices of the write requests in a log of calls, oldest first. *)
Definition writes (log : list (Z * Request)) : list Sheet :=
  flat_map (fun c => match req_method (snd c), req_values (snd c) with
                     | PUT, Some values => [values]
                     | _, _ => []
                     end) log.

(** The state of the authorisation module once a user has signed in and
    been granted a token. *)
Definition signed_in (token : string) : AuthState :=
  mkAuthState true (Some (mkUser "u1" "u1@example.org" "jwt")) (Some token).

(** ** The specification's reading of the selected column *)

Definition lower_ascii (c : ascii) : ascii :=
  let n := nat_of_ascii c in
  if (Nat.leb 65 n && Nat.leb n 90)%bool then ascii_of_nat (n + 32) else c.

Fixpoint lower (s : string) : string :=
  match s with
  | EmptyString => EmptyString
  | String c s' => String (lower_ascii c) (lower s')
  end.

(** As the specification words it: the cell, compared without regard to
    case, is one of the truthy tokens ["true"] and ["1"]. *)
Definition truthy_token_ci (c : option string) : bool :=
  match c with
  | Some s => (lower s =? "true") || (lower s =? "1")
  | None => false
  end.

(** ** Notions used in the statements *)

(** The world in which [rateLimitedFetch] issues its call. *)
Definition at_call (w : World) : World :=
  stamp (match pending_delay (Date_now w) (lastRequestTime w) with
         | Some ms => sleep ms w
         | None => w
         end).

(** Ascending [order], the relation the Writer sorts by. *)
Definition le_order (a b : PlaylistItem) : Prop := (order a <= order b)%Z.

(** An item moved up by one position: [{ ...item, order: item.order - 1 }]. *)
Definition shifted (item : PlaylistItem) : PlaylistItem :=
  mkPlaylistItem (songId item) (selected item) (order item - 1)%Z.

(** ** Concrete sessions *)

(** A remote end that is out of reach. *)
Definition unreachable (req : Request) (s : Sheet) : FetchResult * Sheet := (Rejected, s).

(** A page in which no request has been made yet. *)
Definition world0 (a : AuthState) (s : Sheet) : World := mkWorld 5000 0 a s [].

(** A stored playlist of three songs and a signed-in session. *)
Definition sheet_abc : Sheet :=
  [header; ["a"; "TRUE"]; ["b"; "FALSE"]; ["c"; "TRUE"]].

Definition items_abc : list PlaylistItem :=
  [mkPlaylistItem "a" true 0; mkPlaylistItem "b" false 1; mkPlaylistItem "c" true 2].

Definition world_abc : World := world0 (signed_in "t") sheet_abc.

Definition world_abc_read : World := snd (getPlaylistData (sheets_env "k") world_abc).

(** ** Interleaved calls of the rate limiter *)

Module EventLoop.

(** A call of [rateLimitedFetch] suspended at its [await]: who waits, and the
    time at which the timer set by [setTimeout] is due. *)
Record Timer : Type := mkTimer {
  caller : nat;
  due : Z
}.

(** The single thread: the time of the latest step, the module variable
    [lastRequestTime], the pending timers in the order they were set, and the
    calls of [fetch] that have begun, oldest first, each with the time at
    which it began. *)
Record Loop : Type := mkLoop {
  now : Z;
  last : Z;
  timers : list Timer;
  started : list (nat * Z)
}.

(** What the loop runs next: a caller invokes [rateLimitedFetch] at time [t],
    or the timer of a suspended call fires at time [t] and the call resumes
    after its [await]. *)
Inductive Event : Type :=
| Call (c : nat) (t : Z)
| Fire (c : nat) (t : Z).

(** The timer that fires next: the one due first, and of those due at the
    same time the one set first. *)
Fixpoint earliest (ts : list Timer) : option Timer :=
  match ts with
  | [] => None
  | tm :: ts' =>
      match earliest ts' with
      | Some tm' => if (due tm' <? due tm)%Z then Some tm' else Some tm
      | None => Some tm
      end
  end.

Fixpoint cancel (c : nat) (ts : list Timer) : list Timer :=
  match ts with
  | [] => []
  | tm :: ts' => if Nat.eqb (caller tm) c then ts' else tm :: cancel c ts'
  end.

(** [lastRequestTime = Date.now(); return fetch(url, options)] at time [t]. *)
Definition begin (c : nat) (t : Z) (ts : list Timer) (l : Loop) : Loop :=
  mkLoop t t ts (started l ++ [(c, t)]).

(** One step of the loop; [None] when the event cannot happen (time running
    backwards, a timer firing early or out of turn, no such timer). *)
Definition step (l : Loop) (e : Event) : option Loop :=
  match e with
  | Call c t =>
      if (t <? now l)%Z then None
      else
        match pending_delay t (last l) with
        | Some ms => Some (mkLoop t (last l) (timers l ++ [mkTimer c (t + ms)]) (started l))
        | None => Some (begin c t (timers l) l)
        end
  | Fire c t =>
      if (t <? now l)%Z then None
      else
        match earliest (timers l) with
        | Some tm =>
            if Nat.eqb (caller tm) c && negb (t <? due tm)%Z
            then Some (begin c t (cancel c (timers l)) l)
            else None
        | None => None
        end
  end.

Fixpoint run (l : Loop) (es : list Event) : option Loop :=
  match es with
  | [] => Some l
  | e :: es' =>
      match step l e with
      | Some l' => run l' es'
      | None => None
      end
  end.

(** The page has just loaded: [let lastRequestTime = 0]. *)
Definition loaded : Loop := mkLoop 0 0 [] [].

(** The guarantee of the limiter: of any two calls of [fetch], the later one
    begins at least [RATE_LIMIT_DELAY] after the earlier one began. *)
Definition spaced (starts : list (nat * Z)) : Prop :=
  StronglySorted (fun a b => (snd a + RATE_LIMIT_DELAY <= snd b)%Z) starts.

(** No caller enters the limiter while another one is suspended in it. *)
Fixpoint one_at_a_time (l : Loop) (es : list Event) : bool :=
  match es with
  | [] => true
  | e :: es' =>
      match e with
      | Call _ _ => match timers l with [] => true | _ :: _ => false end
      | Fire _ _ => true
      end
      && match step l e with
         | Some l' => one_at_a_time l' es'
         | None => false
         end
  end.

(** Three calls: the first goes out at once; the second and the third arrive
    100 ms and 200 ms later, while the limiter still shows the time of the
    first, and both timers are due one second after the first call. *)
Definition overlapping : list Event :=
  [Call 0 5000; Call 1 5100; Call 2 5200; Fire 1 6000; Fire 2 6000].

End EventLoop.

(** What holds of the loop as long as callers enter the limiter one at a
    time: the calls begun so far are spaced, none began after the time the
    limiter shows, and at most one call is suspended, its timer being due no
    sooner than the minimum interval after that time. *)
Definition limiter_inv (l : EventLoop.Loop) : Prop :=
  EventLoop.spaced (EventLoop.started l)
  /\ Forall (fun a => (snd a <= EventLoop.last l)%Z) (EventLoop.started l)
  /\ (EventLoop.timers l = []
      \/ exists c d, EventLoop.timers l = [EventLoop.mkTimer c d]
                     /\ (EventLoop.last l + RATE_LIMIT_DELAY <= d)%Z).

(** ** Start-up helpers of the service *)

Section Startup.

Variable env : Env.

Definition init_url : string :=
  ("https://sheets.googleapis.com/v4/spreadsheets/" ++ SPREADSHEET_ID ++ "/values/"
     ++ (SHEET_NAME ++ "!A1:B1") ++ "?valueInputOption=RAW")%string.

(** The request of [initializePlaylistSheet]: the header row alone, sent to
    the range [A1:B1]. *)
Definition init_request (token : string) : Request :=
  mkRequest PUT init_url (Some ("Bearer " ++ token)%string) (Some [header]).

(** [initializePlaylistSheet]: when the Reader finds no entry, the gate is
    ready and a token is held, the header is written; the response is not
    looked at, and whatever is thrown is caught and only logged. *)
Definition initializePlaylistSheet : Async unit :=
  try_catch
    (currentData <- getPlaylistData env ;;
     if Nat.eqb (List.length currentData) 0 then
       fun w =>
         if negb (isGapiReady (auth w)) then ret tt w
         else
           match getAccessToken (auth w) with
           | Some token =>
               if token =? "" then ret tt w
               else bind (rateLimitedFetch env (init_request token)) (fun _ => ret tt) w
           | None => ret tt w
           end
     else ret tt)
    (fun _ => ret tt).

(** [checkSheetAccess]: [try { await getPlaylistData(); return true; }
    catch (error) { return false; }] *)
Definition checkSheetAccess : Async bool :=
  try_catch
    (bind (getPlaylistData env) (fun _ => ret true))
    (fun _ => ret false).

End Startup.

(** ** What one call through the limiter leaves behind *)

(** The settlement of the promise of [fetch]. *)
Definition settled (res : FetchResult) : Outcome Response :=
  match res with
  | Rejected => Thrown FetchFailed
  | Resolved r => Returned r
  end.

(** The world after [rateLimitedFetch] has issued [req] from [w]. *)
Definition after_call (env : Env) (req : Request) (w : World) : World :=
  mkWorld (Date_now (at_call w)) (Date_now (at_call w)) (auth w)
          (snd (backend env req (sheet w)))
          (requests w ++ [(Date_now (at_call w), req)]).

(** What the Reader returns for an answer of the remote end. *)
Definition read_result (res : FetchResult) : list PlaylistItem :=
  match res with
  | Rejected => []
  | Resolved r =>
      if ok r then
        match json r with
        | Json (Some values) => items_of_rows values
        | Json None => []
        | BadJson => []
        end
      else []
  end.

(** The message of the error the Writer throws for a response that is not a
    success. *)
Definition write_error (r : Response) : string :=
  if (status r =? 401)%Z then "Authentication failed. Please sign in again."
  else if (status r =? 403)%Z then "Permission denied. Check sheet sharing settings."
  else ("HTTP error! status: " ++ string_of_Z (status r))%string.

(** The same world with another state of the authorisation module. *)
Definition with_auth (a : AuthState) (w : World) : World :=
  mkWorld (Date_now w) (lastRequestTime w) a (sheet w) (requests w).

(** Strictly ascending [order]. *)
Definition lt_order (a b : PlaylistItem) : Prop := (order a < order b)%Z.

(** The id and the flag of an entry, without its position. *)
Definition id_flag (item : PlaylistItem) : string * bool := (songId item, selected item).

(** ** Signing out ([googleAuth.ts]) *)

(** [!!(currentUser && accessToken)] *)
Definition isSignedIn (a : AuthState) : bool :=
  match currentUser a with
  | Some _ => truthy (accessToken a)
  | None => false
  end.

(** The calls [signOut] makes out of the module: to the identity library and
    to the registered listener. *)
Inductive GsiCall : Type :=
| DisableAutoSelect
| Revoke (token : option string)
| AuthStateCallback (signedIn : bool).

(** The module variables [signOut] reads besides those of [AuthState]:
    whether a token client has been created, whether a listener is
    registered, and whether the identity library is loaded (it defines
    [window.google.accounts.id] and [window.google.accounts.oauth2]
    together). *)
Record AuthModule : Type := mkAuthModule {
  vars : AuthState;
  tokenClient : bool;
  authStateCallback : bool;
  google_loaded : bool
}.

(** How the promise of [signOut] settles: it is rejected with a [TypeError]
    when [window.google] is read without being defined. *)
Inductive Settlement : Type :=
| Fulfilled
| RejectedTypeError.

(** [signOut]: the two variables are cleared first; then
    [window.google?.accounts?.id?.disableAutoSelect()], then
    [if (tokenClient) window.google.accounts.oauth2.revoke(accessToken, ...)],
    then [if (authStateCallback) authStateCallback(false)]. *)
Definition signOut (m : AuthModule) : Settlement * AuthModule * list GsiCall :=
  let cleared := mkAuthState (isInitialized (vars m)) None None in
  let m' := mkAuthModule cleared (tokenClient m) (authStateCallback m) (google_loaded m) in
  let disable := if google_loaded m then [DisableAutoSelect] else [] in
  let notify := if authStateCallback m then [AuthStateCallback false] else [] in
  if tokenClient m then
    if google_loaded m
    then (Fulfilled, m', disable ++ [Revoke (accessToken cleared)] ++ notify)
    else (RejectedTypeError, m', disable)
  else (Fulfilled, m', disable ++ notify).

(** ** The playlist in the page ([App.tsx]) *)

Module App.

(** [interface Song] *)
Record Song : Type := mkSong {
  id : string;
  title : string;
  driveFileId : string;
  isSelected : bool;
  playlistOrder : option Z;
  content : string;
  webViewLink : string
}.

(** What [loadPlaylistData] and [refreshPlaylist] make of a song:
    [{ ...song, isSelected: playlistItem?.selected || false,
       playlistOrder: playlistItem?.order || null }], where [playlistItem] is
    [playlist.find(p => p.songId === song.id)]; the number 0 is falsy. *)
Definition merged (playlist : list PlaylistItem) (song : Song) : Song :=
  let playlistItem := find (fun p => songId p =? id song) playlist in
  mkSong (id song) (title song) (driveFileId song)
         (match playlistItem with Some p => selected p | None => false end)
         (match playlistItem with
          | Some p => if (order p =? 0)%Z then None else Some (order p)
          | None => None
          end)
         (content song) (webViewLink song).

(** [song.playlistOrder || 0] *)
Definition sort_key (song : Song) : Z :=
  match playlistOrder song with
  | Some n => n
  | None => 0%Z
  end.

(** [.sort((a, b) => (a.playlistOrder || 0) - (b.playlistOrder || 0))], a
    stable sort. *)
Fixpoint insert_by_key (x : Song) (l : list Song) : list Song :=
  match l with
  | [] => [x]
  | y :: l' => if (sort_key x <=? sort_key y)%Z then x :: l else y :: insert_by_key x l'
  end.

Fixpoint sort_by_key (l : list Song) : list Song :=
  match l with
  | [] => []
  | x :: l' => insert_by_key x (sort_by_key l')
  end.

(** [songs.filter(song => song.isSelected).sort(...)] *)
Definition selectedSongs (songs : list Song) : list Song :=
  sort_by_key (filter isSelected songs).

(** [l.findIndex(p)]: the position of the first element that satisfies [p],
    or -1. *)
Fixpoint findIndex_from (p : Song -> bool) (l : list Song) (i : Z) : Z :=
  match l with
  | [] => (-1)%Z
  | x :: l' => if p x then i else findIndex_from p l' (i + 1)%Z
  end.

Definition findIndex (p : Song -> bool) (l : list Song) : Z := findIndex_from p l 0.

(** The position at which [splice(start, ...)] works on an array of length
    [len]: a negative [start] counts from the end, and the position is
    clamped to the array. *)
Definition splice_start (start : Z) (len : nat) : nat :=
  if (start <? 0)%Z
  then Z.to_nat (Z.max (Z.of_nat len + start) 0)
  else Nat.min (Z.to_nat start) len.

(** [l.splice(start, 1)]: the elements deleted (none when the position is
    the end of the array) and the array that is left. *)
Definition splice_delete1 {A} (start : Z) (l : list A) : list A * list A :=
  let i := splice_start start (List.length l) in
  (firstn 1 (skipn i l), firstn i l ++ skipn (S i) l).

(** [l.splice(start, 0, x)]: the array with [x] inserted. *)
Definition splice_insert {A} (start : Z) (x : A) (l : list A) : list A :=
  let i := splice_start start (List.length l) in
  firstn i l ++ x :: skipn i l.

Inductive Direction : Type := up | down.

(** What [moveSong] does once it is past the sign-in test: it returns at
    once, or it hands ids to [reorderPlaylist], or it fails on
    [newSelectedSongs.map(song => song.id)] because the array holds
    [undefined] (nothing was deleted, so [movedSong] is [undefined]). *)
Inductive Move : Type :=
| Stay
| Send (reorderedSongIds : list string)
| Crash.

Definition reorderedSongIds (shown : list Song) (songId : string) (direction : Direction)
  : Move :=
  let currentIndex := findIndex (fun s => id s =? songId) shown in
  if match direction with
     | up => (currentIndex =? 0)%Z
     | down => (currentIndex =? Z.of_nat (List.length shown) - 1)%Z
     end
  then Stay
  else
    let newIndex := match direction with
                    | up => (currentIndex - 1)%Z
                    | down => (currentIndex + 1)%Z
                    end in
    let (deleted, newSelectedSongs) := splice_delete1 currentIndex shown in
    match deleted with
    | movedSong :: _ => Send (map id (splice_insert newIndex movedSong newSelectedSongs))
    | [] => Crash
    end.

(** The [order] of the playlist entry of a song, 0 when it has none. *)
Definition entry_order (playlist : list PlaylistItem) (song : Song) : Z :=
  match find (fun p => songId p =? id song) playlist with
  | Some p => order p
  | None => 0%Z
  end.

End App.

(** Three songs shown in the page. *)
Definition song_of (i : string) (position : option Z) : App.Song :=
  App.mkSong i i i true position "" "".

Definition shown_abc : list App.Song :=
  [song_of "a" None; song_of "b" (Some 1%Z); song_of "c" (Some 2%Z)].

(** * Properties *)

(** ** Generic facts about [try]/[catch] and the Reader *)

Lemma try_rethrow {A} (m : Async A) (w : World) :
  try_catch m (fun error => throw error) w = m w.
Proof.
  unfold try_catch, throw.
  destruct (m w) as [[a | e] w']; reflexivity.
Qed.

Lemma at_call_sheet w : sheet (at_call w) = sheet w.
Proof. unfold at_call. destruct (pending_delay _ _); reflexivity. Qed.

Lemma at_call_auth w : auth (at_call w) = auth w.
Proof. unfold at_call. destruct (pending_delay _ _); reflexivity. Qed.

Lemma at_call_requests w : requests (at_call w) = requests w.
Proof. unfold at_call. destruct (pending_delay _ _); reflexivity. Qed.

Lemma rateLimitedFetch_eq env req w :
  rateLimitedFetch env req w = fetch env req (at_call w).
Proof. reflexivity. Qed.

(** A call that runs alone through the limiter begins no sooner than the
    minimum interval after the time the limiter showed, and leaves the time
    at which it began in [lastRequestTime]. *)
Lemma rateLimitedFetch_waits env req w o w' :
  rateLimitedFetch env req w = (o, w') ->
  exists t,
    requests w' = requests w ++ [(t, req)]
    /\ lastRequestTime w' = t
    /\ (lastRequestTime w + RATE_LIMIT_DELAY <= t)%Z.
Proof.
  rewrite rateLimitedFetch_eq. unfold fetch.
  destruct (backend env req (sheet (at_call w))) as [res s'].
  intros H. exists (Date_now (at_call w)).
  assert (Hw : w' = mkWorld (Date_now (at_call w)) (lastRequestTime (at_call w))
                       (auth (at_call w)) s'
                       (requests (at_call w) ++ [(Date_now (at_call w), req)])).
  { destruct res; inversion H; reflexivity. }
  subst w'. cbn [requests lastRequestTime]. rewrite at_call_requests.
  split; [reflexivity |].
  unfold at_call, pending_delay.
  destruct (Date_now w - lastRequestTime w <? RATE_LIMIT_DELAY)%Z eqn:E;
    cbn [stamp sleep Date_now lastRequestTime]; split; try reflexivity.
  - lia.
  - apply Z.ltb_ge in E. lia.
Qed.

(** The Reader never throws. *)
Lemma getPlaylistData_returns env w :
  exists items w', getPlaylistData env w = (Returned items, w').
Proof.
  unfold getPlaylistData, try_catch, bind.
  destruct (rateLimitedFetch env (read_request env) w) as [[r | e] w1].
  - destruct (negb (ok r)).
    + destruct (status r =? 403)%Z; unfold throw, ret; eauto.
    + unfold response_json. destruct (json r); unfold throw, ret; eauto.
  - unfold ret; eauto.
Qed.

(** C2. Whenever the read against the backing store fails (the call is
    rejected, the status is not a success, or the body is malformed), the
    Reader returns the empty sequence: it returns, and does not throw. *)
Theorem getPlaylistData_failure_is_empty (env : Env) (w : World) :
  read_failed (fst (backend env (read_request env) (sheet w))) = true ->
  fst (getPlaylistData env w) = Returned [].
Proof.
  intros Hfail.
  unfold getPlaylistData, try_catch, bind.
  rewrite rateLimitedFetch_eq. unfold fetch.
  rewrite at_call_sheet.
  destruct (backend env (read_request env) (sheet w)) as [res s'].
  simpl in Hfail. destruct res as [| r]; simpl.
  - reflexivity.
  - apply orb_true_iff in Hfail. destruct Hfail as [Hok | Hjson].
    + rewrite Hok. destruct (status r =? 403)%Z; reflexivity.
    + destruct (negb (ok r)).
      * destruct (status r =? 403)%Z; reflexivity.
      * unfold response_json. destruct (json r); [reflexivity | discriminate].
Qed.

Lemma getPlaylistData_failure_is_empty_witness :
  fst (getPlaylistData (mkEnv "k" unreachable)
         (world0 (signed_in "t") [["Song UUID"; "Selected"]; ["a"; "TRUE"]]))
  = Returned [].
Proof.
  apply (getPlaylistData_failure_is_empty (mkEnv "k" unreachable)).
  reflexivity.
Defined.

(** C3. When the authorisation gate is not ready the Writer throws the
    signed-out error at once, whatever the entries: the world is left as it
    was, so no call of [fetch] is made and the sheet is untouched. *)
Theorem updatePlaylistData_unauthenticated
  (env : Env) (playlistItems : list PlaylistItem) (w : World) :
  isGapiReady (auth w) = false ->
  updatePlaylistData env playlistItems w = (Thrown Unauthenticated, w)
  /\ requests (snd (updatePlaylistData env playlistItems w)) = requests w
  /\ writes (requests (snd (updatePlaylistData env playlistItems w))) = writes (requests w).
Proof.
  intros Hgate.
  assert (E : updatePlaylistData env playlistItems w = (Thrown Unauthenticated, w)).
  { unfold updatePlaylistData. rewrite Hgate. reflexivity. }
  rewrite E. auto.
Qed.

Lemma updatePlaylistData_unauthenticated_witness :
  let w := world0 (mkAuthState true None None) [["Song UUID"; "Selected"]] in
  let items := [mkPlaylistItem "a" true 0] in
  updatePlaylistData (sheets_env "k") items w = (Thrown Unauthenticated, w)
  /\ requests (snd (updatePlaylistData (sheets_env "k") items w)) = requests w
  /\ writes (requests (snd (updatePlaylistData (sheets_env "k") items w)))
     = writes (requests w).
Proof.
  apply updatePlaylistData_unauthenticated. reflexivity.
Defined.

(** ** Indexed maps *)

Lemma mapi_from_length {A B} (f : A -> nat -> B) l i :
  List.length (mapi_from f i l) = List.length l.
Proof.
  revert i. induction l as [| x l IH]; intros i; simpl; [reflexivity |].
  now rewrite IH.
Qed.

Lemma mapi_from_nth_error {A B} (f : A -> nat -> B) l i j :
  nth_error (mapi_from f i l) j = option_map (fun x => f x (i + j)) (nth_error l j).
Proof.
  revert i j. induction l as [| x l IH]; intros i j.
  - destruct j; reflexivity.
  - destruct j as [| j]; simpl.
    + now rewrite Nat.add_0_r.
    + rewrite IH. now rewrite Nat.add_succ_r.
Qed.

Lemma mapi_from_map {A B C} (f : A -> nat -> B) (g : B -> C) (h : A -> C) l i :
  (forall x j, g (f x j) = h x) ->
  map g (mapi_from f i l) = map h l.
Proof.
  intros Hgf. revert i. induction l as [| x l IH]; intros i; simpl; [reflexivity |].
  now rewrite Hgf, IH.
Qed.

Lemma mapi_from_index {A B} (f : A -> nat -> B) (g : B -> Z) l i :
  (forall x j, g (f x j) = Z.of_nat j) ->
  map g (mapi_from f i l) = map Z.of_nat (seq i (List.length l)).
Proof.
  intros Hgf. revert i. induction l as [| x l IH]; intros i; simpl; [reflexivity |].
  now rewrite Hgf, IH.
Qed.

Lemma mapi_from_In {A B} (f : A -> nat -> B) l i y :
  In y (mapi_from f i l) ->
  exists x j, nth_error l j = Some x /\ y = f x (i + j).
Proof.
  revert i. induction l as [| x l IH]; intros i; simpl; [tauto |].
  intros [<- | Hin].
  - exists x, 0. now rewrite Nat.add_0_r.
  - destruct (IH _ Hin) as (x' & j & Hj & ->).
    exists x', (S j). split; [exact Hj |]. f_equal. lia.
Qed.

(** ** The selected column *)

(** Every entry of the Reader comes from a data row, at the position of that
    row after the header. *)
Lemma items_of_rows_In rows item :
  In item (items_of_rows rows) ->
  exists row index,
    nth_error (tl rows) index = Some row /\ item = item_of_row row index
    /\ songId item <> "".
Proof.
  unfold items_of_rows, mapi. rewrite filter_In. intros [Hin Hne].
  destruct (mapi_from_In _ _ _ _ Hin) as (row & j & Hj & ->).
  exists row, j. repeat split; auto.
  intros E. rewrite E in Hne. discriminate.
Qed.

(** C7, as the code has it. For every data row the Reader turns into an
    entry, the entry is selected exactly when the second cell of the row is
    one of the three literals "TRUE", "true" and "1" (compared as they are,
    with regard to case); any other cell, an empty or a missing one, gives
    an unselected entry. *)
Theorem selected_iff_exact_token (rows : Sheet) (item : PlaylistItem) :
  In item (items_of_rows rows) ->
  exists row index,
    nth_error (tl rows) index = Some row /\ item = item_of_row row index
    /\ (selected item = true <->
        nth_error row 1 = Some "TRUE" \/ nth_error row 1 = Some "true"
        \/ nth_error row 1 = Some "1").
Proof.
  intros Hin. destruct (items_of_rows_In _ _ Hin) as (row & index & Hrow & -> & _).
  exists row, index. split; [exact Hrow |]. split; [reflexivity |].
  unfold item_of_row; cbn [selected]; unfold selected_of_cell.
  destruct (nth_error row 1) as [c |].
  - rewrite !orb_true_iff, !String.eqb_eq. split.
    + intros [[-> | ->] | ->]; auto.
    + intros [H | [H | H]]; inversion H; auto.
  - split; [discriminate |]. intros [H | [H | H]]; discriminate.
Qed.

Lemma selected_iff_exact_token_witness :
  exists row index,
    nth_error (tl [header; ["a"; "true"]]) index = Some row
    /\ mkPlaylistItem "a" true 0 = item_of_row row index
    /\ (selected (mkPlaylistItem "a" true 0) = true <->
        nth_error row 1 = Some "TRUE" \/ nth_error row 1 = Some "true"
        \/ nth_error row 1 = Some "1").
Proof.
  apply (selected_iff_exact_token [header; ["a"; "true"]]).
  simpl. left. reflexivity.
Defined.

(** C7, as the specification words it, fails: the cell "True" matches the
    token "true" when case is disregarded, yet the Reader builds an
    unselected entry from it. *)
Lemma selected_not_case_insensitive :
  In (item_of_row ["a"; "True"] 0) (items_of_rows [header; ["a"; "True"]])
  /\ ~ (selected (item_of_row ["a"; "True"] 0) = true <->
        truthy_token_ci (nth_error ["a"; "True"] 1) = true).
Proof.
  split.
  - simpl. left. reflexivity.
  - intros [_ Hback]. specialize (Hback eq_refl). discriminate Hback.
Qed.

Lemma insert_by_order_perm x l : Permutation (x :: l) (insert_by_order x l).
Proof.
  induction l as [| y l IH]; simpl; [reflexivity |].
  destruct (order x <=? order y)%Z; [reflexivity |].
  rewrite perm_swap. now apply perm_skip.
Qed.

Lemma sort_by_order_perm l : Permutation l (sort_by_order l).
Proof.
  induction l as [| x l IH]; simpl; [reflexivity |].
  rewrite <- insert_by_order_perm. now apply perm_skip.
Qed.

Lemma insert_by_order_sorted x l :
  Sorted le_order l -> Sorted le_order (insert_by_order x l).
Proof.
  induction l as [| y l IH]; intros Hs; simpl.
  - repeat constructor.
  - destruct (order x <=? order y)%Z eqn:E.
    + constructor; [exact Hs |]. constructor. unfold le_order. lia.
    + inversion Hs as [| ? ? Hs' Hhd]; subst.
      constructor; [now apply IH |].
      destruct l as [| z l]; simpl.
      * constructor. unfold le_order. lia.
      * destruct (order x <=? order z)%Z; constructor; unfold le_order.
        -- lia.
        -- inversion Hhd; subst. assumption.
Qed.

Lemma sort_by_order_sorted l : Sorted le_order (sort_by_order l).
Proof.
  induction l as [| x l IH]; simpl; [constructor |].
  now apply insert_by_order_sorted.
Qed.

(** A list that is already in ascending order of [order] is left as it is:
    in particular items of equal [order] keep their relative position. *)
Lemma sort_by_order_fixed l : Sorted le_order l -> sort_by_order l = l.
Proof.
  induction l as [| x l IH]; intros Hs; simpl; [reflexivity |].
  inversion Hs as [| ? ? Hs' Hhd]; subst.
  rewrite (IH Hs').
  destruct l as [| y l]; simpl; [reflexivity |].
  inversion Hhd as [| ? ? Hle]; subst. unfold le_order in Hle.
  destruct (order x <=? order y)%Z eqn:E; [reflexivity | lia].
Qed.

Lemma seq_order_sorted l i :
  map order l = map Z.of_nat (seq i (List.length l)) -> Sorted le_order l.
Proof.
  revert i. induction l as [| x l IH]; intros i H; [constructor |].
  cbn [map seq List.length] in H. injection H as Hx Hl.
  constructor; [now apply (IH (S i)) |].
  destruct l as [| y l]; constructor.
  cbn [map seq List.length] in Hl. injection Hl as Hy _. unfold le_order. lia.
Qed.

Lemma renumber_fixed l i :
  map order l = map Z.of_nat (seq i (List.length l)) ->
  mapi_from renumber i l = l.
Proof.
  revert i. induction l as [| x l IH]; intros i H; simpl; [reflexivity |].
  cbn [map seq List.length] in H. injection H as Hx Hl.
  rewrite (IH _ Hl). f_equal.
  destruct x as [id sel ord]; unfold renumber; cbn [songId selected order] in *. now subst.
Qed.

Lemma item_of_row_of_item item index :
  item_of_row (row_of_item item) index = renumber item index.
Proof.
  unfold item_of_row, row_of_item, renumber, selected_of_cell; simpl.
  destruct (selected item); reflexivity.
Qed.

Lemma mapi_from_rows l i :
  mapi_from item_of_row i (map row_of_item l) = mapi_from renumber i l.
Proof.
  revert i. induction l as [| x l IH]; intros i; simpl; [reflexivity |].
  now rewrite IH, item_of_row_of_item.
Qed.

Lemma filter_all {A} (p : A -> bool) l :
  (forall x, In x l -> p x = true) -> filter p l = l.
Proof.
  induction l as [| x l IH]; intros H; simpl; [reflexivity |].
  rewrite (H x (or_introl eq_refl)). f_equal. apply IH. intros y Hy. apply H. now right.
Qed.

(** What the Reader makes of what the Writer sent: the items in ascending
    [order], renumbered by position. *)
Lemma items_of_values l :
  (forall item, In item l -> songId item <> "") ->
  items_of_rows (values_of_items l) = mapi renumber (sort_by_order l).
Proof.
  intros Hne. unfold items_of_rows, values_of_items, mapi; simpl.
  rewrite mapi_from_rows. apply filter_all.
  intros y Hy. destruct (mapi_from_In _ _ _ _ Hy) as (x & j & Hj & ->).
  simpl. apply negb_true_iff, String.eqb_neq. apply Hne.
  apply Permutation_in with (l := sort_by_order l).
  - symmetry. apply sort_by_order_perm.
  - eapply nth_error_In; eassumption.
Qed.

(** ** Reader and Writer against the spreadsheet *)

Lemma writes_app log1 log2 : writes (log1 ++ log2) = writes log1 ++ writes log2.
Proof. unfold writes. apply flat_map_app. Qed.

(** Against the spreadsheet the Reader returns the entries of the stored rows
    and changes neither the sheet nor the session, and writes nothing. *)
Lemma getPlaylistData_spreadsheet key w :
  exists w',
    getPlaylistData (sheets_env key) w = (Returned (items_of_rows (sheet w)), w')
    /\ sheet w' = sheet w /\ auth w' = auth w
    /\ writes (requests w') = writes (requests w).
Proof.
  unfold getPlaylistData, try_catch, bind.
  rewrite rateLimitedFetch_eq. unfold fetch. rewrite at_call_sheet.
  cbn [backend sheets_env spreadsheet read_request req_method].
  exists (mkWorld (Date_now (at_call w)) (lastRequestTime (at_call w)) (auth (at_call w))
            (sheet w)
            (requests (at_call w) ++ [(Date_now (at_call w), read_request (sheets_env key))])).
  split.
  - destruct (sheet w); reflexivity.
  - cbn [sheet auth requests]. rewrite at_call_auth, at_call_requests, writes_app.
    cbn. rewrite app_nil_r. auto.
Qed.

Lemma isGapiReady_token a :
  isGapiReady a = true -> exists token, accessToken a = Some token /\ (token =? "") = false.
Proof.
  unfold isGapiReady. intros H. apply andb_true_iff in H. destruct H as [_ H].
  destruct (currentUser a); [| discriminate].
  unfold truthy in H. destruct (accessToken a) as [token |]; [| discriminate].
  exists token. split; [reflexivity |]. now apply negb_true_iff.
Qed.

(** Against the spreadsheet a signed-in Writer succeeds; the sheet then holds
    exactly the header and the rows of the items in ascending [order]. *)
Lemma updatePlaylistData_spreadsheet key items w :
  isGapiReady (auth w) = true ->
  exists w',
    updatePlaylistData (sheets_env key) items w = (Returned tt, w')
    /\ sheet w' = values_of_items items /\ auth w' = auth w
    /\ writes (requests w') = writes (requests w) ++ [values_of_items items].
Proof.
  intros Hready. destruct (isGapiReady_token _ Hready) as (token & Htok & Hne).
  unfold updatePlaylistData. rewrite Hready. cbn [negb].
  rewrite try_rethrow. unfold getAccessToken. rewrite Htok, Hne.
  unfold bind. rewrite rateLimitedFetch_eq. unfold fetch.
  cbn [backend sheets_env spreadsheet write_request req_method req_authorization req_values].
  eexists. split; [reflexivity |].
  cbn [sheet auth requests]. rewrite at_call_auth, at_call_requests, writes_app.
  cbn. auto.
Qed.

(** Two ascending lists of integers with the same elements are equal. *)
Lemma ascending_perm_eq (l1 l2 : list Z) :
  StronglySorted Z.le l1 -> StronglySorted Z.le l2 -> Permutation l1 l2 -> l1 = l2.
Proof.
  intros H1. revert l2. induction H1 as [| a l1 Hs1 IH Ha]; intros l2 H2 Hp.
  - apply Permutation_nil in Hp. now subst.
  - destruct H2 as [| b l2 Hs2 Hb].
    + apply Permutation_sym, Permutation_nil in Hp. discriminate.
    + assert (Hab : a = b).
      { assert (Hina : In a (b :: l2)) by (apply (Permutation_in _ Hp); now left).
        assert (Hinb : In b (a :: l1))
          by (apply (Permutation_in _ (Permutation_sym Hp)); now left).
        rewrite Forall_forall in Ha, Hb.
        destruct Hina as [-> | Hina]; [reflexivity |].
        destruct Hinb as [-> | Hinb]; [reflexivity |].
        specialize (Ha _ Hinb). specialize (Hb _ Hina). lia. }
      subst b. f_equal. apply IH; [exact Hs2 |].
      now apply Permutation_cons_inv in Hp.
Qed.

Lemma sorted_orders l : Sorted le_order l -> StronglySorted Z.le (map order l).
Proof.
  intros Hs. apply Sorted_StronglySorted; [intros x y z; apply Z.le_trans |].
  induction Hs as [| a l Hs IH Hhd]; simpl; constructor; [exact IH |].
  destruct Hhd; simpl; constructor. assumption.
Qed.

Lemma positions_ascending i n : StronglySorted Z.le (map Z.of_nat (seq i n)).
Proof.
  apply Sorted_StronglySorted; [intros x y z; apply Z.le_trans |].
  revert i. induction n as [| n IH]; intros i; simpl; constructor; [apply IH |].
  destruct n; simpl; constructor. lia.
Qed.

(** Entries whose [order] fields are the positions 0..n-1 in some
    arrangement are, once sorted, numbered by position. *)
Lemma sorted_positions l :
  Permutation (map order l) (map Z.of_nat (seq 0 (List.length l))) ->
  map order (sort_by_order l)
  = map Z.of_nat (seq 0 (List.length (sort_by_order l))).
Proof.
  intros Hp.
  pose proof (sort_by_order_perm l) as Hsort.
  rewrite <- (Permutation_length Hsort).
  apply ascending_perm_eq.
  - apply sorted_orders, sort_by_order_sorted.
  - apply positions_ascending.
  - rewrite <- Hp. apply Permutation_map. now symmetry.
Qed.

(** C1. Round trip.  For a signed-in session against the spreadsheet, and n
    entries with pairwise distinct non-empty song ids whose [order] fields
    are the values 0..n-1: the Writer succeeds, and the Reader then returns
    the same entries, each with its id, its selected flag and its order
    value, arranged by order; for entries handed over arranged by order
    (the entry at position i has order i) that is the very same sequence. *)
Theorem write_then_read_roundtrip (key : string) (entries : list PlaylistItem) (w : World) :
  isGapiReady (auth w) = true ->
  NoDup (map songId entries) ->
  (forall item, In item entries -> songId item <> "") ->
  Permutation (map order entries) (map Z.of_nat (seq 0 (List.length entries))) ->
  exists w1 w2,
    updatePlaylistData (sheets_env key) entries w = (Returned tt, w1)
    /\ getPlaylistData (sheets_env key) w1 = (Returned (sort_by_order entries), w2)
    /\ Permutation entries (sort_by_order entries)
    /\ Sorted le_order (sort_by_order entries)
    /\ (map order entries = map Z.of_nat (seq 0 (List.length entries)) ->
        getPlaylistData (sheets_env key) w1 = (Returned entries, w2)).
Proof.
  intros Hready _ Hne Hord.
  destruct (updatePlaylistData_spreadsheet key entries w Hready) as (w1 & Hw & Hsheet & _).
  destruct (getPlaylistData_spreadsheet key w1) as (w2 & Hr & _).
  assert (Hback : getPlaylistData (sheets_env key) w1
                  = (Returned (sort_by_order entries), w2)).
  { rewrite Hr, Hsheet, (items_of_values _ Hne). unfold mapi.
    now rewrite (renumber_fixed _ _ (sorted_positions _ Hord)). }
  exists w1, w2.
  split; [exact Hw |].
  split; [exact Hback |].
  split; [apply sort_by_order_perm |].
  split; [apply sort_by_order_sorted |].
  intros Hseq. rewrite Hback.
  now rewrite (sort_by_order_fixed entries (seq_order_sorted _ _ Hseq)).
Qed.

Lemma write_then_read_roundtrip_witness :
  let entries := [mkPlaylistItem "a" true 0; mkPlaylistItem "b" false 1;
                  mkPlaylistItem "c" true 2] in
  let w := world0 (signed_in "t") [] in
  exists w1 w2,
    updatePlaylistData (sheets_env "k") entries w = (Returned tt, w1)
    /\ getPlaylistData (sheets_env "k") w1 = (Returned entries, w2).
Proof.
  intros entries w.
  destruct (write_then_read_roundtrip "k" entries w) as (w1 & w2 & Hw & _ & _ & _ & Hsame).
  - reflexivity.
  - repeat constructor; simpl; intuition discriminate.
  - simpl. intros item [<- | [<- | [<- | []]]]; discriminate.
  - reflexivity.
  - exists w1, w2. split; [exact Hw |]. apply Hsame. reflexivity.
Defined.

(** The core of the round trip: items numbered by position, with non-empty
    ids, are read back as they were written. *)
Lemma items_of_values_fixed l :
  (forall item, In item l -> songId item <> "") ->
  map order l = map Z.of_nat (seq 0 (List.length l)) ->
  items_of_rows (values_of_items l) = l.
Proof.
  intros Hne Hord. rewrite (items_of_values _ Hne).
  rewrite (sort_by_order_fixed l (seq_order_sorted _ _ Hord)).
  unfold mapi. now apply renumber_fixed.
Qed.

(** Order normalisation on write: whatever sequence the entries are handed
    over in, the Reader finds them in ascending [order] (entries of equal
    [order] in the sequence they were handed over in), numbered by
    position. *)
Lemma write_then_read_normalises key entries w :
  isGapiReady (auth w) = true ->
  (forall item, In item entries -> songId item <> "") ->
  exists w1 w2,
    updatePlaylistData (sheets_env key) entries w = (Returned tt, w1)
    /\ getPlaylistData (sheets_env key) w1
       = (Returned (mapi renumber (sort_by_order entries)), w2)
    /\ Permutation entries (sort_by_order entries)
    /\ Sorted le_order (sort_by_order entries).
Proof.
  intros Hready Hne.
  destruct (updatePlaylistData_spreadsheet key entries w Hready) as (w1 & Hw & Hsheet & _).
  destruct (getPlaylistData_spreadsheet key w1) as (w2 & Hr & _).
  exists w1, w2. rewrite Hr, Hsheet, (items_of_values _ Hne).
  repeat split; [exact Hw | apply sort_by_order_perm | apply sort_by_order_sorted].
Qed.

Example scrambled_entries_are_read_sorted :
  fst (getPlaylistData (sheets_env "k")
         (snd (updatePlaylistData (sheets_env "k")
                 [mkPlaylistItem "c" true 2; mkPlaylistItem "a" true 0;
                  mkPlaylistItem "b" false 1]
                 (world0 (signed_in "t") []))))
  = Returned items_abc.
Proof. reflexivity. Qed.

(** ** Lists with unique song ids *)

Lemma unique_split cur s item :
  NoDup (map songId cur) -> In item cur -> songId item = s ->
  exists before after,
    cur = before ++ item :: after
    /\ (forall x, In x before -> songId x <> s)
    /\ (forall x, In x after -> songId x <> s).
Proof.
  intros Hnd Hin Hid.
  destruct (in_split _ _ Hin) as (before & after & ->).
  exists before, after. split; [reflexivity |].
  rewrite map_app in Hnd. cbn [map] in Hnd.
  apply NoDup_remove_2 in Hnd. rewrite Hid in Hnd.
  split; intros x Hx E; apply Hnd, in_or_app; [left | right];
    rewrite <- E; now apply in_map.
Qed.

Lemma find_absent s l :
  (forall x, In x l -> songId x <> s) -> find (fun item => songId item =? s) l = None.
Proof.
  induction l as [| x l IH]; intros H; simpl; [reflexivity |].
  destruct (songId x =? s) eqn:E.
  - apply String.eqb_eq in E. exfalso. apply (H x); [now left | exact E].
  - apply IH. intros y Hy. apply H. now right.
Qed.

Lemma find_split s before item after :
  (forall x, In x before -> songId x <> s) -> songId item = s ->
  find (fun i => songId i =? s) (before ++ item :: after) = Some item.
Proof.
  intros Hb Hid. induction before as [| x before IH]; simpl.
  - rewrite Hid, String.eqb_refl. reflexivity.
  - destruct (songId x =? s) eqn:E.
    + apply String.eqb_eq in E. exfalso. apply (Hb x); [now left | exact E].
    + apply IH. intros y Hy. apply Hb. now right.
Qed.

Lemma filter_other s l :
  (forall x, In x l -> songId x <> s) ->
  filter (fun item => negb (songId item =? s)) l = l.
Proof.
  intros H. apply filter_all. intros x Hx.
  apply negb_true_iff, String.eqb_neq. now apply H.
Qed.

Lemma filter_split s before item after :
  (forall x, In x before -> songId x <> s) ->
  (forall x, In x after -> songId x <> s) ->
  songId item = s ->
  filter (fun i => negb (songId i =? s)) (before ++ item :: after) = before ++ after.
Proof.
  intros Hb Ha Hid. rewrite filter_app. cbn [filter].
  rewrite Hid, String.eqb_refl. cbn [negb].
  now rewrite (filter_other _ _ Hb), (filter_other _ _ Ha).
Qed.

Lemma marked_other s l :
  (forall x, In x l -> songId x <> s) -> marked s l = l.
Proof.
  induction l as [| x l IH]; intros H; simpl; [reflexivity |].
  destruct (songId x =? s) eqn:E.
  - apply String.eqb_eq in E. exfalso. apply (H x); [now left | exact E].
  - f_equal. apply IH. intros y Hy. apply H. now right.
Qed.

Lemma marked_split s before item after :
  (forall x, In x before -> songId x <> s) ->
  (forall x, In x after -> songId x <> s) ->
  songId item = s ->
  marked s (before ++ item :: after)
  = before ++ mkPlaylistItem s true (order item) :: after.
Proof.
  intros Hb Ha Hid. unfold marked at 1. rewrite map_app. cbn [map].
  fold (marked s before). fold (marked s after).
  rewrite (marked_other _ _ Hb), (marked_other _ _ Ha).
  now rewrite Hid, String.eqb_refl.
Qed.

(** ** Renumbering after a removal *)

Lemma mapi_from_app {A B} (f : A -> nat -> B) l1 l2 i :
  mapi_from f i (l1 ++ l2) = mapi_from f i l1 ++ mapi_from f (i + List.length l1) l2.
Proof.
  revert i. induction l1 as [| x l1 IH]; intros i; simpl.
  - now rewrite Nat.add_0_r.
  - rewrite IH. now rewrite Nat.add_succ_r.
Qed.

Lemma orders_app l1 l2 i :
  map order (l1 ++ l2) = map Z.of_nat (seq i (List.length (l1 ++ l2))) ->
  map order l1 = map Z.of_nat (seq i (List.length l1))
  /\ map order l2 = map Z.of_nat (seq (i + List.length l1) (List.length l2)).
Proof.
  revert i. induction l1 as [| x l1 IH]; intros i H.
  - simpl. now rewrite Nat.add_0_r.
  - cbn [app map seq List.length] in *. injection H as Hx Hl.
    destruct (IH _ Hl) as [H1 H2]. split.
    + now rewrite Hx, H1.
    + now rewrite Nat.add_succ_r.
Qed.

Lemma renumber_shift l i :
  map order l = map Z.of_nat (seq (S i) (List.length l)) ->
  mapi_from renumber i l = map shifted l.
Proof.
  revert i. induction l as [| x l IH]; intros i H; simpl; [reflexivity |].
  cbn [map seq List.length] in H. injection H as Hx Hl.
  rewrite (IH _ Hl). f_equal.
  unfold renumber, shifted. f_equal. lia.
Qed.

Lemma removed_eq s cur :
  removed s cur = mapi renumber (filter (fun item => negb (songId item =? s)) cur).
Proof. reflexivity. Qed.

Lemma removed_orders s cur :
  map order (removed s cur)
  = map Z.of_nat (seq 0 (List.length (removed s cur))).
Proof.
  rewrite removed_eq. unfold mapi. rewrite mapi_from_length.
  now apply mapi_from_index.
Qed.

Lemma removed_ids s cur :
  map songId (removed s cur)
  = map songId (filter (fun item => negb (songId item =? s)) cur).
Proof. rewrite removed_eq. now apply mapi_from_map. Qed.

Lemma removed_absent s cur : ~ In s (map songId (removed s cur)).
Proof.
  rewrite removed_ids. intros Hin. apply in_map_iff in Hin.
  destruct Hin as (x & Hid & Hx). apply filter_In in Hx. destruct Hx as [_ Hne].
  apply negb_true_iff, String.eqb_neq in Hne. contradiction.
Qed.

Lemma removed_nonempty s cur :
  (forall item, In item cur -> songId item <> "") ->
  forall item, In item (removed s cur) -> songId item <> "".
Proof.
  intros Hne item Hin.
  assert (Hid : In (songId item) (map songId (removed s cur))) by now apply in_map.
  rewrite removed_ids in Hid. apply in_map_iff in Hid.
  destruct Hid as (x & Hxid & Hx). apply filter_In in Hx. destruct Hx as [Hx _].
  rewrite <- Hxid. now apply Hne.
Qed.

Lemma removed_split s before item after :
  (forall x, In x before -> songId x <> s) ->
  (forall x, In x after -> songId x <> s) ->
  songId item = s ->
  removed s (before ++ item :: after)
  = mapi_from renumber 0 before ++ mapi_from renumber (List.length before) after.
Proof.
  intros Hb Ha Hid. rewrite removed_eq, (filter_split _ _ _ _ Hb Ha Hid).
  unfold mapi. now rewrite mapi_from_app.
Qed.

(** ** The mutations as read, transform, write *)

Lemma removeSongFromPlaylist_step env s w cur w1 :
  getPlaylistData env w = (Returned cur, w1) ->
  removeSongFromPlaylist env s w = updatePlaylistData env (removed s cur) w1.
Proof.
  intros H. unfold removeSongFromPlaylist. rewrite try_rethrow.
  unfold bind. now rewrite H.
Qed.

Lemma addSongToPlaylist_step env s w cur w1 :
  getPlaylistData env w = (Returned cur, w1) ->
  addSongToPlaylist env s w = updatePlaylistData env (added s cur) w1.
Proof.
  intros H. unfold addSongToPlaylist. rewrite try_rethrow.
  unfold bind. now rewrite H.
Qed.

Lemma reorderPlaylist_step env ids w cur w1 :
  getPlaylistData env w = (Returned cur, w1) ->
  reorderPlaylist env ids w = updatePlaylistData env (reordered ids cur) w1.
Proof.
  intros H. unfold reorderPlaylist. rewrite try_rethrow.
  unfold bind. now rewrite H.
Qed.

Lemma toggleSongSelection_step env s w cur w1 :
  getPlaylistData env w = (Returned cur, w1) ->
  toggleSongSelection env s w =
  match find (fun item => songId item =? s) cur with
  | Some existingItem =>
      if selected existingItem
      then removeSongFromPlaylist env s w1
      else updatePlaylistData env (marked s cur) w1
  | None => addSongToPlaylist env s w1
  end.
Proof.
  intros H. unfold toggleSongSelection. rewrite try_rethrow.
  unfold bind. rewrite H.
  destruct (find (fun item => songId item =? s) cur) as [existingItem |];
    [destruct (selected existingItem) |]; reflexivity.
Qed.

(** C5. For a fetched playlist of length n with unique song ids and order
    values 0..n-1 that holds the given id at order k, the removal hands to
    the Writer a list of length n-1 whose order fields are 0..n-2: the
    entries before position k as they were, followed by the entries after
    it with their order lowered by one. *)
Theorem removeSongFromPlaylist_closes_gap
  (env : Env) (s : string) (w w1 : World) (cur : list PlaylistItem)
  (item : PlaylistItem) (k : nat) :
  getPlaylistData env w = (Returned cur, w1) ->
  NoDup (map songId cur) ->
  map order cur = map Z.of_nat (seq 0 (List.length cur)) ->
  In item cur -> songId item = s -> order item = Z.of_nat k ->
  removeSongFromPlaylist env s w = updatePlaylistData env (removed s cur) w1
  /\ List.length (removed s cur) = List.length cur - 1
  /\ map order (removed s cur) = map Z.of_nat (seq 0 (List.length cur - 1))
  /\ exists before after,
       cur = before ++ item :: after
       /\ List.length before = k
       /\ removed s cur = before ++ map shifted after.
Proof.
  intros Hread Hnd Hord Hin Hid Hk.
  destruct (unique_split _ _ _ Hnd Hin Hid) as (before & after & -> & Hb & Ha).
  destruct (orders_app _ _ _ Hord) as [Hob Hoa].
  cbn [List.length map seq] in Hoa. injection Hoa as Hitem Hoa.
  assert (Hlen : List.length before = k) by (simpl in Hitem; lia).
  assert (Hrem : removed s (before ++ item :: after) = before ++ map shifted after).
  { rewrite (removed_split _ _ _ _ Hb Ha Hid).
    rewrite (renumber_fixed _ _ Hob).
    now rewrite (renumber_shift _ _ Hoa). }
  assert (Hl : List.length (removed s (before ++ item :: after))
               = List.length (before ++ item :: after) - 1).
  { rewrite Hrem, !length_app, length_map. simpl. lia. }
  split; [now apply removeSongFromPlaylist_step |].
  split; [exact Hl |].
  split; [rewrite <- Hl; apply removed_orders |].
  exists before, after. auto.
Qed.

(** C6. Whatever was fetched and whatever ids are supplied, the reorder hands
    to the Writer one entry per supplied id, in the supplied sequence, with
    order equal to the position of the id; the selected flag is that of the
    fetched entry with this id (the first one, should there be several) and
    true when there is none; a fetched entry whose id is not supplied does
    not appear in what is written. *)
Theorem reorderPlaylist_replaces
  (env : Env) (ids : list string) (w w1 : World) (cur : list PlaylistItem) :
  getPlaylistData env w = (Returned cur, w1) ->
  reorderPlaylist env ids w = updatePlaylistData env (reordered ids cur) w1
  /\ map songId (reordered ids cur) = ids
  /\ map order (reordered ids cur) = map Z.of_nat (seq 0 (List.length ids))
  /\ (forall i id, nth_error ids i = Some id ->
        exists entry,
          nth_error (reordered ids cur) i = Some entry
          /\ songId entry = id /\ order entry = Z.of_nat i
          /\ (forall item, find (fun x => songId x =? id) cur = Some item ->
                selected entry = selected item)
          /\ (forall item, NoDup (map songId cur) -> In item cur -> songId item = id ->
                selected entry = selected item)
          /\ (~ In id (map songId cur) -> selected entry = true))
  /\ (forall item, In item cur -> ~ In (songId item) ids ->
        ~ In (songId item) (map songId (reordered ids cur))).
Proof.
  intros Hread.
  assert (Hids : map songId (reordered ids cur) = ids).
  { unfold reordered, mapi.
    rewrite (mapi_from_map _ songId (fun s => s)); [apply map_id | reflexivity]. }
  split; [now apply reorderPlaylist_step |].
  split; [exact Hids |].
  split; [unfold reordered, mapi; now apply mapi_from_index |].
  split.
  - intros i id Hi. unfold reordered, mapi.
    rewrite mapi_from_nth_error, Hi. cbn [option_map Nat.add].
    eexists. split; [reflexivity |]. cbn [songId order selected].
    repeat split.
    + intros item Hfind. now rewrite Hfind.
    + intros item Hnd Hin Hid.
      destruct (unique_split _ _ _ Hnd Hin Hid) as (before & after & -> & Hb & _).
      now rewrite (find_split _ _ _ _ Hb Hid).
    + intros Habsent. rewrite find_absent; [reflexivity |].
      intros x Hx E. apply Habsent. rewrite <- E. now apply in_map.
  - intros item _ Hout. now rewrite Hids.
Qed.

Lemma removeSongFromPlaylist_closes_gap_witness :
  removeSongFromPlaylist (sheets_env "k") "b" world_abc
  = updatePlaylistData (sheets_env "k") (removed "b" items_abc) world_abc_read
  /\ List.length (removed "b" items_abc) = List.length items_abc - 1
  /\ map order (removed "b" items_abc)
     = map Z.of_nat (seq 0 (List.length items_abc - 1))
  /\ exists before after,
       items_abc = before ++ mkPlaylistItem "b" false 1 :: after
       /\ List.length before = 1
       /\ removed "b" items_abc = before ++ map shifted after.
Proof.
  apply (removeSongFromPlaylist_closes_gap (sheets_env "k") "b" world_abc world_abc_read
           items_abc (mkPlaylistItem "b" false 1) 1).
  - reflexivity.
  - repeat constructor; simpl; intuition discriminate.
  - reflexivity.
  - simpl; auto.
  - reflexivity.
  - reflexivity.
Defined.

Lemma reorderPlaylist_replaces_witness :
  reorderPlaylist (sheets_env "k") ["c"; "a"] world_abc
  = updatePlaylistData (sheets_env "k") (reordered ["c"; "a"] items_abc) world_abc_read
  /\ reordered ["c"; "a"] items_abc
     = [mkPlaylistItem "c" true 0; mkPlaylistItem "a" true 1]
  /\ fst (getPlaylistData (sheets_env "k")
            (snd (reorderPlaylist (sheets_env "k") ["c"; "a"] world_abc)))
     = Returned [mkPlaylistItem "c" true 0; mkPlaylistItem "a" true 1].
Proof.
  split; [| split].
  - apply (reorderPlaylist_replaces (sheets_env "k") ["c"; "a"] world_abc world_abc_read
             items_abc).
    reflexivity.
  - reflexivity.
  - reflexivity.
Defined.

(** The rows the Writer sends for a reordered list: the header, then one row
    per supplied id, in the supplied sequence. *)
Lemma reordered_sorted ids cur : sort_by_order (reordered ids cur) = reordered ids cur.
Proof.
  apply sort_by_order_fixed, (seq_order_sorted _ 0).
  unfold reordered, mapi. rewrite mapi_from_length. now apply mapi_from_index.
Qed.

Lemma reordered_ids ids cur : map songId (reordered ids cur) = ids.
Proof.
  unfold reordered, mapi.
  rewrite (mapi_from_map _ songId (fun s => s)); [apply map_id | reflexivity].
Qed.

Lemma reordered_rows ids cur :
  map (fun row => nth 0 row "") (tl (values_of_items (reordered ids cur))) = ids.
Proof.
  unfold values_of_items. cbn [tl]. rewrite reordered_sorted, map_map.
  cbn [row_of_item nth]. apply reordered_ids.
Qed.

(** C10. The reorder does not deduplicate: when an id is supplied more than
    once, the list handed to the Writer has one entry per occurrence, so its
    song ids are not pairwise distinct, and the rows sent to the sheet repeat
    the id as often as it was supplied. *)
Theorem reorderPlaylist_keeps_duplicates
  (env : Env) (ids : list string) (w w1 : World) (cur : list PlaylistItem) :
  getPlaylistData env w = (Returned cur, w1) ->
  ~ NoDup ids ->
  reorderPlaylist env ids w = updatePlaylistData env (reordered ids cur) w1
  /\ List.length (reordered ids cur) = List.length ids
  /\ (forall id, count_occ string_dec (map songId (reordered ids cur)) id
                 = count_occ string_dec ids id)
  /\ ~ NoDup (map songId (reordered ids cur))
  /\ map (fun row => nth 0 row "") (tl (values_of_items (reordered ids cur))) = ids.
Proof.
  intros Hread Hdup.
  split; [now apply reorderPlaylist_step |].
  split; [unfold reordered, mapi; apply mapi_from_length |].
  rewrite reordered_ids.
  split; [reflexivity |].
  split; [exact Hdup | apply reordered_rows].
Qed.

Lemma reorderPlaylist_keeps_duplicates_witness :
  reorderPlaylist (sheets_env "k") ["a"; "b"; "a"] world_abc
  = updatePlaylistData (sheets_env "k") (reordered ["a"; "b"; "a"] items_abc) world_abc_read
  /\ ~ NoDup (map songId (reordered ["a"; "b"; "a"] items_abc)).
Proof.
  assert (Hnd : ~ NoDup ["a"; "b"; "a"]).
  { intros H. inversion H as [| ? ? Hnotin _]. apply Hnotin. simpl. auto. }
  destruct (reorderPlaylist_keeps_duplicates (sheets_env "k") ["a"; "b"; "a"]
              world_abc world_abc_read items_abc eq_refl Hnd)
    as (Hstep & _ & _ & Hdup & _).
  split; assumption.
Defined.

Lemma toggle_selected env s w w1 cur item :
  getPlaylistData env w = (Returned cur, w1) ->
  NoDup (map songId cur) ->
  In item cur -> songId item = s -> selected item = true ->
  toggleSongSelection env s w = removeSongFromPlaylist env s w1.
Proof.
  intros Hread Hnd Hin Hid Hsel.
  rewrite (toggleSongSelection_step env s w cur w1 Hread).
  destruct (unique_split _ _ _ Hnd Hin Hid) as (before & after & -> & Hb & _).
  now rewrite (find_split _ _ _ _ Hb Hid), Hsel.
Qed.

Lemma toggle_unselected env s w w1 cur item :
  getPlaylistData env w = (Returned cur, w1) ->
  NoDup (map songId cur) ->
  In item cur -> songId item = s -> selected item = false ->
  toggleSongSelection env s w = updatePlaylistData env (marked s cur) w1.
Proof.
  intros Hread Hnd Hin Hid Hsel.
  rewrite (toggleSongSelection_step env s w cur w1 Hread).
  destruct (unique_split _ _ _ Hnd Hin Hid) as (before & after & -> & Hb & _).
  now rewrite (find_split _ _ _ _ Hb Hid), Hsel.
Qed.

Lemma toggle_absent env s w w1 cur :
  getPlaylistData env w = (Returned cur, w1) ->
  (forall item, In item cur -> songId item <> s) ->
  toggleSongSelection env s w = addSongToPlaylist env s w1.
Proof.
  intros Hread Habsent.
  rewrite (toggleSongSelection_step env s w cur w1 Hread).
  now rewrite (find_absent _ _ Habsent).
Qed.

(** C4. The toggle on a fetched playlist with unique song ids.
    - The id is present and selected: the toggle is the removal, run after
      the fetch; when the removal fetches the same snapshot again, what it
      hands to the Writer is the snapshot without the entry (the id is gone
      from it, not flagged unselected).
    - The id is present and unselected: the Writer is handed the snapshot
      with that one entry selected, its order and every other entry as they
      were.
    - The id is absent: the toggle is the addition, run after the fetch; when
      the addition fetches the same snapshot again, what it hands to the
      Writer is the snapshot followed by a selected entry for the id whose
      order is the number of fetched entries. *)
Theorem toggleSongSelection_trichotomy
  (env : Env) (s : string) (w w1 : World) (cur : list PlaylistItem) :
  getPlaylistData env w = (Returned cur, w1) ->
  NoDup (map songId cur) ->
  (forall item, In item cur -> songId item = s -> selected item = true ->
     toggleSongSelection env s w = removeSongFromPlaylist env s w1
     /\ forall w2, getPlaylistData env w1 = (Returned cur, w2) ->
          toggleSongSelection env s w = updatePlaylistData env (removed s cur) w2
          /\ removeSongFromPlaylist env s w1 = updatePlaylistData env (removed s cur) w2
          /\ ~ In s (map songId (removed s cur)))
  /\ (forall item, In item cur -> songId item = s -> selected item = false ->
     toggleSongSelection env s w = updatePlaylistData env (marked s cur) w1
     /\ exists before after,
          cur = before ++ item :: after
          /\ marked s cur = before ++ mkPlaylistItem s true (order item) :: after)
  /\ ((forall item, In item cur -> songId item <> s) ->
     toggleSongSelection env s w = addSongToPlaylist env s w1
     /\ forall w2, getPlaylistData env w1 = (Returned cur, w2) ->
          toggleSongSelection env s w
          = updatePlaylistData env
              (cur ++ [mkPlaylistItem s true (Z.of_nat (List.length cur))]) w2
          /\ addSongToPlaylist env s w1
             = updatePlaylistData env
                 (cur ++ [mkPlaylistItem s true (Z.of_nat (List.length cur))]) w2).
Proof.
  intros Hread Hnd.
  split; [| split].
  - intros item Hin Hid Hsel.
    pose proof (toggle_selected env s w w1 cur item Hread Hnd Hin Hid Hsel) as Htog.
    split; [exact Htog |].
    intros w2 Hagain.
    pose proof (removeSongFromPlaylist_step env s w1 cur w2 Hagain) as Hrem.
    split; [now rewrite Htog | split; [exact Hrem | apply removed_absent]].
  - intros item Hin Hid Hsel.
    split; [now apply (toggle_unselected env s w w1 cur item) |].
    destruct (unique_split _ _ _ Hnd Hin Hid) as (before & after & E & Hb & Ha).
    exists before, after. split; [exact E |].
    rewrite E. now apply marked_split.
  - intros Habsent.
    pose proof (toggle_absent env s w w1 cur Hread Habsent) as Htog.
    split; [exact Htog |].
    intros w2 Hagain.
    pose proof (addSongToPlaylist_step env s w1 cur w2 Hagain) as Hadd.
    unfold added in Hadd. split; [now rewrite Htog | exact Hadd].
Qed.

Lemma toggleSongSelection_trichotomy_witness :
  toggleSongSelection (sheets_env "k") "b" world_abc
  = updatePlaylistData (sheets_env "k") (marked "b" items_abc) world_abc_read
  /\ marked "b" items_abc
     = [mkPlaylistItem "a" true 0; mkPlaylistItem "b" true 1; mkPlaylistItem "c" true 2].
Proof.
  split; [| reflexivity].
  refine (proj1 (proj1 (proj2 (toggleSongSelection_trichotomy (sheets_env "k") "b"
                   world_abc world_abc_read items_abc _ _))
                 (mkPlaylistItem "b" false 1) _ _ _)).
  - reflexivity.
  - repeat constructor; simpl; intuition discriminate.
  - simpl; auto.
  - reflexivity.
  - reflexivity.
Defined.

(** ** Mutations against the spreadsheet *)

Lemma removeSongFromPlaylist_spreadsheet key s w :
  isGapiReady (auth w) = true ->
  exists w',
    removeSongFromPlaylist (sheets_env key) s w = (Returned tt, w')
    /\ sheet w' = values_of_items (removed s (items_of_rows (sheet w)))
    /\ auth w' = auth w.
Proof.
  intros Hready.
  destruct (getPlaylistData_spreadsheet key w) as (w0 & Hread & Hsheet & Hauth & _).
  rewrite <- Hauth in Hready.
  destruct (updatePlaylistData_spreadsheet key (removed s (items_of_rows (sheet w))) w0 Hready)
    as (w' & Hwrite & Hsheet' & Hauth' & _).
  exists w'. rewrite (removeSongFromPlaylist_step _ _ _ _ _ Hread).
  repeat split; [exact Hwrite | exact Hsheet' | congruence].
Qed.

Lemma addSongToPlaylist_spreadsheet key s w :
  isGapiReady (auth w) = true ->
  exists w',
    addSongToPlaylist (sheets_env key) s w = (Returned tt, w')
    /\ sheet w' = values_of_items (added s (items_of_rows (sheet w)))
    /\ auth w' = auth w.
Proof.
  intros Hready.
  destruct (getPlaylistData_spreadsheet key w) as (w0 & Hread & Hsheet & Hauth & _).
  rewrite <- Hauth in Hready.
  destruct (updatePlaylistData_spreadsheet key (added s (items_of_rows (sheet w))) w0 Hready)
    as (w' & Hwrite & Hsheet' & Hauth' & _).
  exists w'. rewrite (addSongToPlaylist_step _ _ _ _ _ Hread).
  repeat split; [exact Hwrite | exact Hsheet' | congruence].
Qed.

Lemma items_of_rows_nonempty rows item :
  In item (items_of_rows rows) -> songId item <> "".
Proof.
  intros Hin. destruct (items_of_rows_In _ _ Hin) as (_ & _ & _ & _ & Hne). exact Hne.
Qed.

Lemma removed_length s cur item :
  NoDup (map songId cur) -> In item cur -> songId item = s ->
  List.length (removed s cur) = List.length cur - 1.
Proof.
  intros Hnd Hin Hid.
  destruct (unique_split _ _ _ Hnd Hin Hid) as (before & after & -> & Hb & Ha).
  rewrite (removed_split _ _ _ _ Hb Ha Hid).
  rewrite !length_app, !mapi_from_length. simpl. lia.
Qed.

Lemma added_orders s l :
  map order l = map Z.of_nat (seq 0 (List.length l)) ->
  map order (added s l) = map Z.of_nat (seq 0 (List.length (added s l))).
Proof.
  intros H. unfold added. rewrite length_app, seq_app, !map_app, H. reflexivity.
Qed.

(** C8. Against the spreadsheet, signed in: from a stored playlist of length
    n with unique song ids in which the id is selected at order k < n-1, a
    first toggle removes the entry, so that n-1 entries with orders 0..n-2
    are stored; a second toggle stores those entries followed by a selected
    entry for the id with order n-1, which is not the order k it had. *)
Theorem toggleSongSelection_twice_moves_to_end
  (key s : string) (w w0 : World) (cur : list PlaylistItem)
  (item : PlaylistItem) (k : nat) :
  isGapiReady (auth w) = true ->
  getPlaylistData (sheets_env key) w = (Returned cur, w0) ->
  NoDup (map songId cur) ->
  In item cur -> songId item = s -> selected item = true ->
  order item = Z.of_nat k -> k < List.length cur - 1 ->
  exists w1 w2,
    toggleSongSelection (sheets_env key) s w = (Returned tt, w1)
    /\ fst (getPlaylistData (sheets_env key) w1) = Returned (removed s cur)
    /\ List.length (removed s cur) = List.length cur - 1
    /\ map order (removed s cur) = map Z.of_nat (seq 0 (List.length cur - 1))
    /\ ~ In s (map songId (removed s cur))
    /\ toggleSongSelection (sheets_env key) s w1 = (Returned tt, w2)
    /\ fst (getPlaylistData (sheets_env key) w2)
       = Returned (removed s cur
                   ++ [mkPlaylistItem s true (Z.of_nat (List.length cur - 1))])
    /\ Z.of_nat (List.length cur - 1) <> order item.
Proof.
  intros Hready Hread Hnd Hin Hid Hsel Hk Hlt.
  (* the snapshot is what the stored rows hold *)
  destruct (getPlaylistData_spreadsheet key w) as (w0' & Hread' & Hsheet0 & Hauth0 & _).
  rewrite Hread in Hread'. injection Hread' as Hcur <-.
  assert (Hne : forall x, In x cur -> songId x <> "").
  { intros x Hx. rewrite Hcur in Hx. now apply items_of_rows_nonempty in Hx. }
  assert (Hs : s <> "") by (rewrite <- Hid; now apply Hne).
  pose proof (removed_length s cur item Hnd Hin Hid) as Hlen.
  (* first toggle: the removal *)
  pose proof (toggle_selected _ s w w0 cur item Hread Hnd Hin Hid Hsel) as Htog1.
  assert (Hready0 : isGapiReady (auth w0) = true) by now rewrite Hauth0.
  destruct (removeSongFromPlaylist_spreadsheet key s w0 Hready0)
    as (w1 & Hrem & Hsheet1 & Hauth1).
  rewrite Hsheet0, <- Hcur in Hsheet1.
  assert (Hstored1 : items_of_rows (sheet w1) = removed s cur).
  { rewrite Hsheet1. apply items_of_values_fixed.
    - now apply removed_nonempty.
    - apply removed_orders. }
  destruct (getPlaylistData_spreadsheet key w1) as (w1' & Hread1 & Hsheet1' & Hauth1' & _).
  rewrite Hstored1 in Hread1.
  (* second toggle: the addition *)
  assert (Habsent : forall x, In x (removed s cur) -> songId x <> s).
  { intros x Hx E. apply (removed_absent s cur).
    apply in_map with (f := songId) in Hx. now rewrite E in Hx. }
  pose proof (toggle_absent _ s w1 w1' _ Hread1 Habsent) as Htog2.
  assert (Hready1 : isGapiReady (auth w1') = true) by (rewrite Hauth1', Hauth1; exact Hready0).
  destruct (addSongToPlaylist_spreadsheet key s w1' Hready1)
    as (w2 & Hadd & Hsheet2 & Hauth2).
  rewrite Hsheet1', Hstored1 in Hsheet2.
  assert (Hstored2 : items_of_rows (sheet w2) = added s (removed s cur)).
  { rewrite Hsheet2. apply items_of_values_fixed.
    - unfold added. intros x Hx. apply in_app_or in Hx. destruct Hx as [Hx | [<- | []]].
      + now apply (removed_nonempty s cur Hne).
      + exact Hs.
    - apply added_orders, removed_orders. }
  destruct (getPlaylistData_spreadsheet key w2) as (w2' & Hread2 & _).
  exists w1, w2.
  split; [now rewrite Htog1 |].
  split; [now rewrite Hread1 |].
  split; [exact Hlen |].
  split; [rewrite <- Hlen; apply removed_orders |].
  split; [apply removed_absent |].
  split; [now rewrite Htog2 |].
  split.
  - rewrite Hread2, Hstored2. unfold added. now rewrite Hlen.
  - rewrite Hk. lia.
Qed.

Lemma toggleSongSelection_twice_moves_to_end_witness :
  exists w1 w2,
    toggleSongSelection (sheets_env "k") "a" world_abc = (Returned tt, w1)
    /\ fst (getPlaylistData (sheets_env "k") w1) = Returned (removed "a" items_abc)
    /\ List.length (removed "a" items_abc) = List.length items_abc - 1
    /\ map order (removed "a" items_abc)
       = map Z.of_nat (seq 0 (List.length items_abc - 1))
    /\ ~ In "a" (map songId (removed "a" items_abc))
    /\ toggleSongSelection (sheets_env "k") "a" w1 = (Returned tt, w2)
    /\ fst (getPlaylistData (sheets_env "k") w2)
       = Returned (removed "a" items_abc
                   ++ [mkPlaylistItem "a" true (Z.of_nat (List.length items_abc - 1))])
    /\ Z.of_nat (List.length items_abc - 1) <> order (mkPlaylistItem "a" true 0).
Proof.
  apply (toggleSongSelection_twice_moves_to_end "k" "a" world_abc world_abc_read
           items_abc (mkPlaylistItem "a" true 0) 0).
  - reflexivity.
  - reflexivity.
  - repeat constructor; simpl; intuition discriminate.
  - simpl; auto.
  - reflexivity.
  - reflexivity.
  - reflexivity.
  - simpl. lia.
Defined.

(** ** The rate limiter under interleaving *)

(** C9, on the code: with a second caller arriving while a first one is
    suspended in the limiter, both calls of [fetch] begin at the same time,
    so the calls are not spaced by the minimum interval. *)
Theorem overlapping_calls_begin_together :
  option_map EventLoop.started (EventLoop.run EventLoop.loaded EventLoop.overlapping)
  = Some [(0, 5000%Z); (1, 6000%Z); (2, 6000%Z)]
  /\ ~ EventLoop.spaced [(0, 5000%Z); (1, 6000%Z); (2, 6000%Z)].
Proof.
  split; [reflexivity |].
  unfold EventLoop.spaced. intros H.
  inversion H as [| ? ? H1 _]; subst.
  inversion H1 as [| ? ? _ Hall]; subst.
  inversion Hall as [| ? ? Hle _]; subst.
  unfold RATE_LIMIT_DELAY in Hle. simpl in Hle. lia.
Qed.

Lemma StronglySorted_snoc {A} (R : A -> A -> Prop) l x :
  StronglySorted R l -> Forall (fun a => R a x) l -> StronglySorted R (l ++ [x]).
Proof.
  induction 1 as [| a l Hs IH Ha]; intros Hall; simpl.
  - repeat constructor.
  - inversion Hall as [| ? ? Hax Hall']; subst.
    constructor; [now apply IH |].
    apply Forall_app. split; [exact Ha | now constructor].
Qed.

Lemma begin_inv c t l :
  limiter_inv l -> (EventLoop.last l + RATE_LIMIT_DELAY <= t)%Z ->
  limiter_inv (EventLoop.begin c t [] l).
Proof.
  intros (Hsp & Hle & _) Ht. unfold limiter_inv, EventLoop.begin.
  cbn [EventLoop.started EventLoop.last EventLoop.timers].
  assert (Hd : (0 <= RATE_LIMIT_DELAY)%Z) by (unfold RATE_LIMIT_DELAY; lia).
  split; [| split].
  - apply StronglySorted_snoc; [exact Hsp |].
    eapply Forall_impl; [| exact Hle]. intros a Ha. cbn [snd] in *. lia.
  - apply Forall_app. split.
    + eapply Forall_impl; [| exact Hle]. intros a Ha. cbn [snd] in *. lia.
    + constructor; [cbn [snd]; lia | constructor].
  - now left.
Qed.

Lemma step_inv l e l' :
  limiter_inv l ->
  (match e with
   | EventLoop.Call _ _ => EventLoop.timers l = []
   | EventLoop.Fire _ _ => True
   end) ->
  EventLoop.step l e = Some l' -> limiter_inv l'.
Proof.
  intros Hinv Hquiet Hstep. destruct e as [c t | c t]; cbn [EventLoop.step] in Hstep.
  - destruct (t <? EventLoop.now l)%Z; [discriminate |].
    unfold pending_delay in Hstep.
    destruct (t - EventLoop.last l <? RATE_LIMIT_DELAY)%Z eqn:E.
    + injection Hstep as <-. destruct Hinv as (Hsp & Hle & _).
      unfold limiter_inv.
      cbn [EventLoop.started EventLoop.last EventLoop.timers].
      rewrite Hquiet. repeat split; try assumption.
      right. exists c, (t + (RATE_LIMIT_DELAY - (t - EventLoop.last l)))%Z.
      split; [reflexivity | lia].
    + injection Hstep as <-. rewrite Hquiet.
      apply (begin_inv c t l Hinv). apply Z.ltb_ge in E. lia.
  - destruct (t <? EventLoop.now l)%Z; [discriminate |].
    destruct Hinv as (Hsp & Hle & [Hnone | (c' & d & Hone & Hd)]).
    + rewrite Hnone in Hstep. discriminate.
    + rewrite Hone in Hstep.
      cbn [EventLoop.earliest EventLoop.cancel EventLoop.caller EventLoop.due] in Hstep.
      destruct (Nat.eqb c' c) eqn:Ec; [| discriminate].
      destruct (t <? d)%Z eqn:Et; [discriminate |].
      cbn [andb negb] in Hstep. injection Hstep as <-.
      apply (begin_inv c t l).
      * unfold limiter_inv. repeat split; try assumption.
        right. exists c', d. auto.
      * apply Z.ltb_ge in Et. lia.
Qed.

Lemma one_at_a_time_inv es : forall l l',
  limiter_inv l ->
  EventLoop.one_at_a_time l es = true ->
  EventLoop.run l es = Some l' -> limiter_inv l'.
Proof.
  induction es as [| e es IH]; intros l l' Hinv Hseq Hrun; simpl in *.
  - injection Hrun as <-. exact Hinv.
  - apply andb_true_iff in Hseq. destruct Hseq as [Hquiet Hrest].
    destruct (EventLoop.step l e) as [l1 |] eqn:Hstep; [| discriminate].
    apply (IH l1 l'); [| exact Hrest | exact Hrun].
    apply (step_inv l e l1 Hinv); [| exact Hstep].
    destruct e; [| exact I].
    destruct (EventLoop.timers l); [reflexivity | discriminate].
Qed.

Lemma one_at_a_time_runs es : forall l,
  EventLoop.one_at_a_time l es = true -> exists l', EventLoop.run l es = Some l'.
Proof.
  induction es as [| e es IH]; intros l Hseq; simpl in *.
  - eauto.
  - apply andb_true_iff in Hseq. destruct Hseq as [_ Hrest].
    destruct (EventLoop.step l e) as [l1 |]; [now apply IH | discriminate].
Qed.

(** X14. From the freshly loaded page, any schedule in which no caller
    enters the limiter while another is suspended in it runs to an end in
    which all calls of [fetch] are at least the minimum interval apart. *)
Lemma one_at_a_time_spaced es :
  EventLoop.one_at_a_time EventLoop.loaded es = true ->
  exists l', EventLoop.run EventLoop.loaded es = Some l'
             /\ EventLoop.spaced (EventLoop.started l').
Proof.
  intros Hseq. destruct (one_at_a_time_runs es _ Hseq) as (l' & Hrun).
  exists l'. split; [exact Hrun |].
  apply (one_at_a_time_inv es EventLoop.loaded l'); [| exact Hseq | exact Hrun].
  unfold limiter_inv; simpl. repeat split; [constructor | constructor | now left].
Qed.

(** * Further properties of the service *)

(** ** One call through the limiter *)

Lemma at_call_stamp w : lastRequestTime (at_call w) = Date_now (at_call w).
Proof. reflexivity. Qed.

Lemma rateLimitedFetch_run env req w :
  rateLimitedFetch env req w
  = (settled (fst (backend env req (sheet w))), after_call env req w).
Proof.
  rewrite rateLimitedFetch_eq. unfold fetch, after_call.
  rewrite at_call_sheet, at_call_auth, at_call_requests, at_call_stamp.
  destruct (backend env req (sheet w)) as [res s']. cbn [fst snd settled].
  destruct res; reflexivity.
Qed.

Lemma after_call_auth env req w : auth (after_call env req w) = auth w.
Proof. reflexivity. Qed.

Lemma after_call_requests env req w :
  requests (after_call env req w) = requests w ++ [(Date_now (at_call w), req)].
Proof. reflexivity. Qed.

Lemma after_call_last env req w :
  lastRequestTime (after_call env req w) = Date_now (at_call w).
Proof. reflexivity. Qed.

(** The call is issued no sooner than the minimum interval after the time
    the limiter showed. *)
Lemma at_call_waits w : (lastRequestTime w + RATE_LIMIT_DELAY <= Date_now (at_call w))%Z.
Proof.
  unfold at_call, pending_delay.
  destruct (Date_now w - lastRequestTime w <? RATE_LIMIT_DELAY)%Z eqn:E;
    cbn [stamp sleep Date_now].
  - lia.
  - apply Z.ltb_ge in E. lia.
Qed.

Lemma writes_read env log t :
  writes (log ++ [(t, read_request env)]) = writes log.
Proof. rewrite writes_app. cbn. apply app_nil_r. Qed.

Lemma writes_put log t url authorization values :
  writes (log ++ [(t, mkRequest PUT url authorization (Some values))])
  = writes log ++ [values].
Proof. rewrite writes_app. reflexivity. Qed.

(** The Reader in one equation: what it returns is decided by the answer of
    the remote end alone, and it leaves one logged call behind. *)
Lemma getPlaylistData_run env w :
  getPlaylistData env w
  = (Returned (read_result (fst (backend env (read_request env) (sheet w)))),
     after_call env (read_request env) w).
Proof.
  unfold getPlaylistData, try_catch, bind. rewrite rateLimitedFetch_run.
  destruct (fst (backend env (read_request env) (sheet w))) as [| r];
    cbn [settled read_result]; [reflexivity |].
  destruct (ok r); cbn [negb].
  - unfold response_json. destruct (json r) as [| [values |]]; reflexivity.
  - destruct (status r =? 403)%Z; reflexivity.
Qed.

(** The Writer in one equation, for a ready gate. *)
Lemma updatePlaylistData_run env items w token :
  isGapiReady (auth w) = true ->
  accessToken (auth w) = Some token ->
  updatePlaylistData env items w
  = (match fst (backend env (write_request token (values_of_items items)) (sheet w)) with
     | Rejected => Thrown FetchFailed
     | Resolved r => if ok r then Returned tt else Thrown (Error (write_error r))
     end,
     after_call env (write_request token (values_of_items items)) w).
Proof.
  intros Hready Htok.
  destruct (isGapiReady_token _ Hready) as (token' & Htok' & Hne).
  rewrite Htok in Htok'. injection Htok' as <-.
  unfold updatePlaylistData. rewrite Hready. cbn [negb]. rewrite try_rethrow.
  unfold getAccessToken. rewrite Htok, Hne.
  unfold bind. rewrite rateLimitedFetch_run.
  destruct (fst (backend env (write_request token (values_of_items items)) (sheet w)))
    as [| r]; cbn [settled]; [reflexivity |].
  unfold write_error. destruct (ok r); cbn [negb]; [reflexivity |].
  destruct (status r =? 401)%Z; [reflexivity |].
  destruct (status r =? 403)%Z; reflexivity.
Qed.

(** ** The Writer: success, failure, and the branch that is never taken *)

(** X1. The Writer returns normally exactly when the gate is ready and the
    remote end answers the write request with a success status; in every
    other case it throws. *)
Theorem updatePlaylistData_succeeds_iff
  (env : Env) (playlistItems : list PlaylistItem) (w : World) :
  fst (updatePlaylistData env playlistItems w) = Returned tt
  <-> isGapiReady (auth w) = true
      /\ exists token r,
           accessToken (auth w) = Some token
           /\ fst (backend env (write_request token (values_of_items playlistItems)) (sheet w))
              = Resolved r
           /\ ok r = true.
Proof.
  split.
  - intros Hret. destruct (isGapiReady (auth w)) eqn:Hready.
    + split; [reflexivity |].
      destruct (isGapiReady_token _ Hready) as (token & Htok & _).
      rewrite (updatePlaylistData_run env _ w token Hready Htok) in Hret.
      cbn [fst] in Hret. exists token.
      destruct (fst (backend env (write_request token (values_of_items playlistItems))
                       (sheet w))) as [| r]; [discriminate |].
      exists r. destruct (ok r); [auto | discriminate].
    + unfold updatePlaylistData in Hret. rewrite Hready in Hret. discriminate.
  - intros (Hready & token & r & Htok & Hres & Hok).
    rewrite (updatePlaylistData_run env _ w token Hready Htok), Hres, Hok. reflexivity.
Qed.

(** X2. With the gate ready, a failure of the write is handed on to the
    caller and tells the three cases apart: a rejected call is thrown as it
    is, status 401 gives the "sign in again" error, status 403 the
    "permission denied" error, and any other status that is not a success an
    error that names the status. *)
Theorem updatePlaylistData_failure_kinds
  (env : Env) (playlistItems : list PlaylistItem) (w : World) (token : string) :
  isGapiReady (auth w) = true ->
  accessToken (auth w) = Some token ->
  let res := fst (backend env (write_request token (values_of_items playlistItems)) (sheet w)) in
  (res = Rejected -> fst (updatePlaylistData env playlistItems w) = Thrown FetchFailed)
  /\ (forall r, res = Resolved r -> ok r = false ->
        (status r = 401%Z ->
           fst (updatePlaylistData env playlistItems w)
           = Thrown (Error "Authentication failed. Please sign in again."))
        /\ (status r = 403%Z ->
           fst (updatePlaylistData env playlistItems w)
           = Thrown (Error "Permission denied. Check sheet sharing settings."))
        /\ (status r <> 401%Z -> status r <> 403%Z ->
           fst (updatePlaylistData env playlistItems w)
           = Thrown (Error ("HTTP error! status: " ++ string_of_Z (status r))%string))).
Proof.
  intros Hready Htok res.
  rewrite (updatePlaylistData_run env _ w token Hready Htok). fold res. cbn [fst].
  split.
  - intros ->. reflexivity.
  - intros r -> Hok. rewrite Hok. unfold write_error. repeat split.
    + intros ->. reflexivity.
    + intros ->. reflexivity.
    + intros H401 H403.
      apply Z.eqb_neq in H401, H403. now rewrite H401, H403.
Qed.

(** A remote end that refuses every write with the given status. *)
Lemma updatePlaylistData_failure_kinds_witness :
  fst (updatePlaylistData (mkEnv "k" (fun _ s => (Resolved (mkResponse 500 (Json None)), s)))
         items_abc world_abc)
  = Thrown (Error "HTTP error! status: 500").
Proof.
  refine (proj2 (proj2 (proj2 (updatePlaylistData_failure_kinds
            (mkEnv "k" (fun _ s => (Resolved (mkResponse 500 (Json None)), s)))
            items_abc world_abc "t" _ _) (mkResponse 500 (Json None)) _ _)) _ _).
  - reflexivity.
  - reflexivity.
  - reflexivity.
  - reflexivity.
  - discriminate.
  - discriminate.
Defined.

(** X3. The Writer never throws the "no access token" error: the gate it
    has just passed already requires a non-empty token. *)
Theorem updatePlaylistData_token_branch_dead
  (env : Env) (playlistItems : list PlaylistItem) (w : World) :
  fst (updatePlaylistData env playlistItems w)
  <> Thrown (Error "No access token available").
Proof.
  destruct (isGapiReady (auth w)) eqn:Hready.
  - destruct (isGapiReady_token _ Hready) as (token & Htok & _).
    rewrite (updatePlaylistData_run env _ w token Hready Htok). cbn [fst].
    destruct (fst (backend env (write_request token (values_of_items playlistItems))
                     (sheet w))) as [| r]; [discriminate |].
    destruct (ok r); [discriminate |].
    unfold write_error.
    destruct (status r =? 401)%Z; [discriminate |].
    destruct (status r =? 403)%Z; discriminate.
  - unfold updatePlaylistData. rewrite Hready. discriminate.
Qed.

(** ** The start-up helpers *)

(** X4. The access check answers true whatever the remote end does, also
    when the sheet cannot be reached: the Reader it relies on never throws. *)
Theorem checkSheetAccess_always_true (env : Env) (w : World) :
  fst (checkSheetAccess env w) = Returned true.
Proof.
  unfold checkSheetAccess, try_catch, bind.
  rewrite getPlaylistData_run. reflexivity.
Qed.

Lemma initializePlaylistSheet_run env w :
  initializePlaylistSheet env w
  = let w1 := after_call env (read_request env) w in
    match read_result (fst (backend env (read_request env) (sheet w))),
          isGapiReady (auth w), accessToken (auth w) with
    | [], true, Some token => (Returned tt, after_call env (init_request token) w1)
    | _, _, _ => (Returned tt, w1)
    end.
Proof.
  unfold initializePlaylistSheet, try_catch, bind.
  rewrite getPlaylistData_run. cbn zeta.
  destruct (read_result _) as [| item items]; cbn [List.length Nat.eqb]; [| reflexivity].
  rewrite after_call_auth.
  destruct (isGapiReady (auth w)) eqn:Hready; cbn [negb]; [| reflexivity].
  destruct (isGapiReady_token _ Hready) as (token & Htok & Hne).
  unfold getAccessToken. rewrite Htok, Hne.
  rewrite rateLimitedFetch_run.
  destruct (settled _); reflexivity.
Qed.

(** X5. The initialisation never throws.  It writes exactly when the Reader
    returned no entry and the gate is ready, and then sends the header row
    alone; in every other case (entries found, or nobody signed in) it
    writes nothing. *)
Theorem initializePlaylistSheet_writes
  (env : Env) (w w1 : World) (currentData : list PlaylistItem) :
  getPlaylistData env w = (Returned currentData, w1) ->
  fst (initializePlaylistSheet env w) = Returned tt
  /\ writes (requests (snd (initializePlaylistSheet env w)))
     = writes (requests w)
       ++ (match currentData with
           | [] => if isGapiReady (auth w) then [[header]] else []
           | _ :: _ => []
           end).
Proof.
  intros Hread. rewrite getPlaylistData_run in Hread. injection Hread as Hdata _.
  rewrite initializePlaylistSheet_run, Hdata. cbn zeta.
  destruct currentData as [| item items].
  - destruct (isGapiReady (auth w)) eqn:Hready.
    + destruct (isGapiReady_token _ Hready) as (token & Htok & _). rewrite Htok.
      cbn [fst snd]. split; [reflexivity |].
      rewrite after_call_requests. unfold init_request.
      rewrite writes_put, after_call_requests, writes_read. reflexivity.
    + cbn [fst snd]. split; [reflexivity |].
      rewrite after_call_requests, writes_read. now rewrite app_nil_r.
  - cbn [fst snd]. split; [reflexivity |].
    rewrite after_call_requests, writes_read. now rewrite app_nil_r.
Qed.

Lemma initializePlaylistSheet_writes_witness :
  fst (initializePlaylistSheet (sheets_env "k") world_abc) = Returned tt
  /\ writes (requests (snd (initializePlaylistSheet (sheets_env "k") world_abc)))
     = writes (requests world_abc) ++ [].
Proof.
  apply (initializePlaylistSheet_writes (sheets_env "k") world_abc world_abc_read items_abc).
  reflexivity.
Defined.

(** ** A read that fails, followed by a write *)

Lemma mutation_write env items w token :
  isGapiReady (auth w) = true ->
  accessToken (auth w) = Some token ->
  writes (requests (snd (updatePlaylistData env items
                           (after_call env (read_request env) w))))
  = writes (requests w) ++ [values_of_items items].
Proof.
  intros Hready Htok.
  rewrite (updatePlaylistData_run env items _ token); [| exact Hready | exact Htok].
  cbn [snd]. rewrite after_call_requests. unfold write_request.
  rewrite writes_put, after_call_requests, writes_read. reflexivity.
Qed.

(** X6. The Reader turns a failed read into an empty playlist, and the
    mutations write on that basis.  With the gate ready and a read that
    fails: the removal sends the header alone (an empty playlist), the
    addition sends the new song as the only entry, the reorder sends the
    supplied ids, all selected, and the initialisation sends the header. *)
Theorem failed_read_is_written_back
  (env : Env) (w : World) (s : string) (ids : list string) :
  read_failed (fst (backend env (read_request env) (sheet w))) = true ->
  isGapiReady (auth w) = true ->
  writes (requests (snd (removeSongFromPlaylist env s w)))
  = writes (requests w) ++ [[header]]
  /\ writes (requests (snd (addSongToPlaylist env s w)))
     = writes (requests w) ++ [[header; [s; "TRUE"]]]
  /\ writes (requests (snd (reorderPlaylist env ids w)))
     = writes (requests w) ++ [header :: map (fun id => [id; "TRUE"]) ids]
  /\ writes (requests (snd (initializePlaylistSheet env w)))
     = writes (requests w) ++ [[header]].
Proof.
  intros Hfail Hready.
  destruct (isGapiReady_token _ Hready) as (token & Htok & _).
  assert (Hempty : read_result (fst (backend env (read_request env) (sheet w))) = []).
  { destruct (fst (backend env (read_request env) (sheet w))) as [| r]; [reflexivity |].
    cbn [read_failed] in Hfail. cbn [read_result].
    destruct (ok r); [| reflexivity].
    destruct (json r) as [| values]; [reflexivity | discriminate]. }
  pose proof (getPlaylistData_run env w) as Hread. rewrite Hempty in Hread.
  repeat split.
  - rewrite (removeSongFromPlaylist_step _ _ _ _ _ Hread).
    now rewrite (mutation_write env _ w token Hready Htok).
  - rewrite (addSongToPlaylist_step _ _ _ _ _ Hread).
    now rewrite (mutation_write env _ w token Hready Htok).
  - rewrite (reorderPlaylist_step _ _ _ _ _ Hread).
    rewrite (mutation_write env _ w token Hready Htok).
    do 2 f_equal. unfold values_of_items. f_equal.
    rewrite reordered_sorted. unfold reordered, mapi.
    generalize 0. induction ids as [| id ids IH]; intros n; [reflexivity |].
    cbn [mapi_from map find]. now rewrite IH.
  - rewrite initializePlaylistSheet_run, Hempty, Hready, Htok. cbn zeta. cbn [snd].
    rewrite after_call_requests. unfold init_request.
    rewrite writes_put, after_call_requests, writes_read. reflexivity.
Qed.

Lemma failed_read_is_written_back_witness :
  writes (requests (snd (removeSongFromPlaylist
                           (mkEnv "k" (fun req sh =>
                              match req_method req with
                              | GET => (Resolved (mkResponse 503 BadJson), sh)
                              | PUT => spreadsheet req sh
                              end)) "a" world_abc)))
  = writes (requests world_abc) ++ [[header]].
Proof.
  refine (proj1 (failed_read_is_written_back _ world_abc "a" [] _ _)).
  - reflexivity.
  - reflexivity.
Defined.

(** ** Mutations without a session *)

Lemma signed_out_write env items w :
  isGapiReady (auth w) = false ->
  updatePlaylistData env items (after_call env (read_request env) w)
  = (Thrown Unauthenticated, after_call env (read_request env) w).
Proof.
  intros Hgate. unfold updatePlaylistData.
  rewrite after_call_auth, Hgate. reflexivity.
Qed.

(** X7. Without a session every mutation fails with the signed-out error and
    sends no write, but only after it has read the sheet: the addition, the
    removal and the reorder leave exactly one logged call behind, the read;
    the toggle leaves one or two reads. *)
Theorem signed_out_mutations_read_first
  (env : Env) (w : World) (s : string) (ids : list string) :
  isGapiReady (auth w) = false ->
  let w1 := after_call env (read_request env) w in
  addSongToPlaylist env s w = (Thrown Unauthenticated, w1)
  /\ removeSongFromPlaylist env s w = (Thrown Unauthenticated, w1)
  /\ reorderPlaylist env ids w = (Thrown Unauthenticated, w1)
  /\ requests w1 = requests w ++ [(Date_now (at_call w), read_request env)]
  /\ fst (toggleSongSelection env s w) = Thrown Unauthenticated
  /\ (snd (toggleSongSelection env s w) = w1
      \/ snd (toggleSongSelection env s w) = after_call env (read_request env) w1)
  /\ writes (requests (snd (toggleSongSelection env s w))) = writes (requests w).
Proof.
  intros Hgate w1.
  pose proof (getPlaylistData_run env w) as Hread. fold w1 in Hread.
  pose proof (getPlaylistData_run env w1) as Hread1.
  assert (Hgate1 : isGapiReady (auth w1) = false) by exact Hgate.
  assert (Hmark : forall items,
             updatePlaylistData env items w1 = (Thrown Unauthenticated, w1)).
  { intros items. now apply signed_out_write. }
  assert (Hadd : forall x, addSongToPlaylist env x w = (Thrown Unauthenticated, w1)).
  { intros x. rewrite (addSongToPlaylist_step _ _ _ _ _ Hread).
    now apply signed_out_write. }
  assert (Hrem : forall x, removeSongFromPlaylist env x w = (Thrown Unauthenticated, w1)).
  { intros x. rewrite (removeSongFromPlaylist_step _ _ _ _ _ Hread).
    now apply signed_out_write. }
  split; [apply Hadd |]. split; [apply Hrem |].
  split; [rewrite (reorderPlaylist_step _ _ _ _ _ Hread); now apply signed_out_write |].
  split; [reflexivity |].
  rewrite (toggleSongSelection_step _ _ _ _ _ Hread).
  assert (Hw1 : writes (requests w1) = writes (requests w)).
  { unfold w1. now rewrite after_call_requests, writes_read. }
  assert (Hw2 : writes (requests (after_call env (read_request env) w1))
                = writes (requests w)).
  { now rewrite after_call_requests, writes_read. }
  destruct (find _ _) as [existingItem |].
  - destruct (selected existingItem).
    + rewrite (removeSongFromPlaylist_step _ _ _ _ _ Hread1).
      rewrite (signed_out_write env _ w1 Hgate1). cbn [fst snd]. auto.
    + rewrite Hmark. cbn [fst snd]. auto.
  - rewrite (addSongToPlaylist_step _ _ _ _ _ Hread1).
    rewrite (signed_out_write env _ w1 Hgate1). cbn [fst snd]. auto.
Qed.

Lemma signed_out_mutations_read_first_witness :
  addSongToPlaylist (sheets_env "k") "d" (world0 (mkAuthState true None None) sheet_abc)
  = (Thrown Unauthenticated,
     after_call (sheets_env "k") (read_request (sheets_env "k"))
       (world0 (mkAuthState true None None) sheet_abc)).
Proof.
  refine (proj1 (signed_out_mutations_read_first (sheets_env "k")
                   (world0 (mkAuthState true None None) sheet_abc) "d" [] _)).
  reflexivity.
Defined.

(** ** The order in which the Writer sends the rows *)

Lemma insert_by_order_filter k x l :
  filter (fun i => (order i =? k)%Z) (insert_by_order x l)
  = filter (fun i => (order i =? k)%Z) (x :: l).
Proof.
  induction l as [| y l IH]; [reflexivity |].
  cbn [insert_by_order]. destruct (order x <=? order y)%Z eqn:E; [reflexivity |].
  cbn [filter] in *. rewrite IH.
  destruct (order y =? k)%Z eqn:Ey, (order x =? k)%Z eqn:Ex; try reflexivity.
  apply Z.eqb_eq in Ey, Ex. apply Z.leb_gt in E. lia.
Qed.

(** X8. The rows the Writer sends are the header followed by the rows of
    the same entries in ascending [order]; entries that share an [order]
    value go out in the sequence in which they were handed over. *)
Theorem values_of_items_sorted_stably (playlistItems : list PlaylistItem) :
  exists sortedItems,
    values_of_items playlistItems = header :: map row_of_item sortedItems
    /\ Permutation playlistItems sortedItems
    /\ Sorted le_order sortedItems
    /\ forall k, filter (fun i => (order i =? k)%Z) sortedItems
                 = filter (fun i => (order i =? k)%Z) playlistItems.
Proof.
  exists (sort_by_order playlistItems).
  split; [reflexivity |].
  split; [apply sort_by_order_perm |].
  split; [apply sort_by_order_sorted |].
  intros k. induction playlistItems as [| x l IH]; [reflexivity |].
  cbn [sort_by_order]. rewrite insert_by_order_filter.
  cbn [filter]. now rewrite IH.
Qed.

(** ** The positions the Reader assigns *)

Lemma StronglySorted_filter {A} (R : A -> A -> Prop) (p : A -> bool) l :
  StronglySorted R l -> StronglySorted R (filter p l).
Proof.
  induction 1 as [| a l Hs IH Ha]; cbn [filter]; [constructor |].
  destruct (p a); [| exact IH].
  constructor; [exact IH |].
  rewrite Forall_forall in *. intros x Hx. apply Ha.
  apply filter_In in Hx. tauto.
Qed.

Lemma mapi_from_rows_ascending i rows :
  StronglySorted lt_order (mapi_from item_of_row i rows).
Proof.
  revert i. induction rows as [| row rows IH]; intros i; cbn [mapi_from]; constructor.
  - apply IH.
  - rewrite Forall_forall. intros item Hin.
    destruct (mapi_from_In _ _ _ _ Hin) as (r & j & _ & ->).
    unfold lt_order, item_of_row; cbn [order]. lia.
Qed.

(** X9. The [order] of an entry returned by the Reader is the position of
    its row among the rows after the first one, counted with the rows the
    Reader drops: the entries come in strictly ascending [order], each one
    stands for the row at that position, which has a non-empty first cell,
    and every row after the first with a non-empty first cell is returned.
    The first row is never returned, whatever it holds. *)
Theorem items_of_rows_positions (rows : Sheet) :
  StronglySorted lt_order (items_of_rows rows)
  /\ (forall item, In item (items_of_rows rows) ->
        (0 <= order item)%Z
        /\ exists row,
             nth_error (tl rows) (Z.to_nat (order item)) = Some row
             /\ item = item_of_row row (Z.to_nat (order item))
             /\ nth 0 row "" <> "")
  /\ (forall index row,
        nth_error (tl rows) index = Some row -> nth 0 row "" <> "" ->
        In (item_of_row row index) (items_of_rows rows)).
Proof.
  split; [| split].
  - unfold items_of_rows, mapi. apply StronglySorted_filter, mapi_from_rows_ascending.
  - intros item Hin.
    destruct (items_of_rows_In _ _ Hin) as (row & index & Hrow & -> & Hne).
    cbn [item_of_row order songId] in *. rewrite Nat2Z.id.
    split; [lia |]. exists row. auto.
  - intros index row Hrow Hne. unfold items_of_rows, mapi.
    apply filter_In. split.
    + apply nth_error_In with (n := index).
      now rewrite mapi_from_nth_error, Hrow.
    + cbn [item_of_row songId]. now apply negb_true_iff, String.eqb_neq.
Qed.

(** ** Mutations against the spreadsheet, continued *)

(** X10. Against the spreadsheet, signed in, with a stored playlist that has
    no blank row (its entries are numbered 0..n-1) and a non-empty id: the
    addition stores the playlist followed by a selected entry for the id at
    order n.  It does so whether or not the id is already stored, so adding
    a stored id leaves two entries with that id. *)
Theorem addSongToPlaylist_appends
  (key s : string) (w w0 : World) (cur : list PlaylistItem) :
  isGapiReady (auth w) = true ->
  getPlaylistData (sheets_env key) w = (Returned cur, w0) ->
  map order cur = map Z.of_nat (seq 0 (List.length cur)) ->
  s <> "" ->
  exists w',
    addSongToPlaylist (sheets_env key) s w = (Returned tt, w')
    /\ fst (getPlaylistData (sheets_env key) w')
       = Returned (cur ++ [mkPlaylistItem s true (Z.of_nat (List.length cur))])
    /\ (In s (map songId cur) ->
        ~ NoDup (map songId
                   (cur ++ [mkPlaylistItem s true (Z.of_nat (List.length cur))]))).
Proof.
  intros Hready Hread Hord Hs.
  destruct (getPlaylistData_spreadsheet key w) as (w0' & Hread' & _).
  rewrite Hread in Hread'. injection Hread' as Hcur _.
  destruct (addSongToPlaylist_spreadsheet key s w Hready) as (w' & Hadd & Hsheet & _).
  rewrite <- Hcur in Hsheet.
  destruct (getPlaylistData_spreadsheet key w') as (w'' & Hback & _).
  exists w'. split; [exact Hadd |]. split.
  - rewrite Hback, Hsheet. cbn [fst]. f_equal.
    apply (items_of_values_fixed (added s cur)).
    + unfold added. intros x Hx. apply in_app_or in Hx. destruct Hx as [Hx | [<- | []]].
      * rewrite Hcur in Hx. now apply items_of_rows_nonempty in Hx.
      * exact Hs.
    + now apply added_orders.
  - intros Hin Hnd. rewrite map_app in Hnd. cbn [map songId] in Hnd.
    apply NoDup_remove_2 in Hnd. apply Hnd. rewrite app_nil_r. exact Hin.
Qed.

Lemma addSongToPlaylist_appends_witness :
  exists w',
    addSongToPlaylist (sheets_env "k") "b" world_abc = (Returned tt, w')
    /\ fst (getPlaylistData (sheets_env "k") w')
       = Returned (items_abc ++ [mkPlaylistItem "b" true 3]).
Proof.
  destruct (addSongToPlaylist_appends "k" "b" world_abc world_abc_read items_abc)
    as (w' & Hadd & Hback & _).
  - reflexivity.
  - reflexivity.
  - reflexivity.
  - discriminate.
  - exists w'. split; [exact Hadd | exact Hback].
Defined.

Lemma removeSongFromPlaylist_stored key s w :
  isGapiReady (auth w) = true ->
  exists w',
    removeSongFromPlaylist (sheets_env key) s w = (Returned tt, w')
    /\ sheet w' = values_of_items (removed s (items_of_rows (sheet w)))
    /\ items_of_rows (sheet w') = removed s (items_of_rows (sheet w))
    /\ auth w' = auth w.
Proof.
  intros Hready.
  destruct (removeSongFromPlaylist_spreadsheet key s w Hready) as (w' & Hrem & Hsheet & Hauth).
  exists w'. repeat split; try assumption.
  rewrite Hsheet. apply items_of_values_fixed.
  - apply removed_nonempty. intros x Hx. now apply items_of_rows_nonempty in Hx.
  - apply removed_orders.
Qed.

Lemma removed_idempotent s cur : removed s (removed s cur) = removed s cur.
Proof.
  rewrite (removed_eq s (removed s cur)).
  rewrite filter_other.
  - unfold mapi. apply renumber_fixed, removed_orders.
  - intros x Hx E. apply (removed_absent s cur).
    apply in_map with (f := songId) in Hx. now rewrite E in Hx.
Qed.

(** X11. Against the spreadsheet, signed in: a second removal of the same id
    leaves the sheet exactly as the first one left it, and what the first
    one stored is the stored playlist without the entries of that id,
    renumbered by position. *)
Theorem removeSongFromPlaylist_idempotent (key s : string) (w : World) :
  isGapiReady (auth w) = true ->
  exists w1 w2,
    removeSongFromPlaylist (sheets_env key) s w = (Returned tt, w1)
    /\ removeSongFromPlaylist (sheets_env key) s w1 = (Returned tt, w2)
    /\ fst (getPlaylistData (sheets_env key) w1)
       = Returned (removed s (items_of_rows (sheet w)))
    /\ sheet w2 = sheet w1.
Proof.
  intros Hready.
  destruct (removeSongFromPlaylist_stored key s w Hready)
    as (w1 & Hrem1 & Hsheet1 & Hstored1 & Hauth1).
  assert (Hready1 : isGapiReady (auth w1) = true) by now rewrite Hauth1.
  destruct (removeSongFromPlaylist_stored key s w1 Hready1)
    as (w2 & Hrem2 & Hsheet2 & _ & _).
  destruct (getPlaylistData_spreadsheet key w1) as (w1' & Hback & _).
  exists w1, w2. repeat split; try assumption.
  - now rewrite Hback, Hstored1.
  - now rewrite Hsheet2, Hstored1, removed_idempotent, Hsheet1.
Qed.

Lemma removeSongFromPlaylist_idempotent_witness :
  exists w1 w2,
    removeSongFromPlaylist (sheets_env "k") "b" world_abc = (Returned tt, w1)
    /\ removeSongFromPlaylist (sheets_env "k") "b" w1 = (Returned tt, w2)
    /\ fst (getPlaylistData (sheets_env "k") w1)
       = Returned (removed "b" (items_of_rows (sheet world_abc)))
    /\ sheet w2 = sheet w1.
Proof.
  apply (removeSongFromPlaylist_idempotent "k" "b" world_abc). reflexivity.
Defined.

(** ** Reordering the ids that are stored *)

Lemma find_present cur item :
  NoDup (map songId cur) -> In item cur ->
  find (fun x => songId x =? songId item) cur = Some item.
Proof.
  intros Hnd Hin.
  destruct (unique_split _ _ _ Hnd Hin eq_refl) as (before & after & -> & Hb & _).
  now apply find_split.
Qed.

Lemma mapi_from_of_map {A B C} (f : B -> nat -> C) (g : A -> B) l i :
  mapi_from f i (map g l) = mapi_from (fun x j => f (g x) j) i l.
Proof.
  revert i. induction l as [| x l IH]; intros i; cbn [map mapi_from]; [reflexivity |].
  now rewrite IH.
Qed.

Lemma mapi_from_ext_in {A B} (f g : A -> nat -> B) l i :
  (forall x j, In x l -> f x j = g x j) ->
  mapi_from f i l = mapi_from g i l.
Proof.
  revert i. induction l as [| x l IH]; intros i H; cbn [mapi_from]; [reflexivity |].
  rewrite (H x i (or_introl eq_refl)). f_equal.
  apply IH. intros y j Hy. apply H. now right.
Qed.

(** The flag the reorder gives to an id. *)
Lemma reordered_id_flags ids cur :
  map id_flag (reordered ids cur)
  = map (fun s => (s, match find (fun item => songId item =? s) cur with
                      | Some item => selected item
                      | None => true
                      end)) ids.
Proof. unfold reordered, mapi. now apply mapi_from_map. Qed.

(** X12. When the fetched playlist has unique ids and the supplied ids are a
    rearrangement of the fetched ids, the reorder hands over the same
    entries, each with the flag it had, only in another sequence; when the
    ids are supplied in the fetched sequence and the fetched entries are
    numbered by position, it hands over the fetched playlist unchanged. *)
Theorem reorderPlaylist_rearranges
  (env : Env) (ids : list string) (w w1 : World) (cur : list PlaylistItem) :
  getPlaylistData env w = (Returned cur, w1) ->
  NoDup (map songId cur) ->
  Permutation ids (map songId cur) ->
  reorderPlaylist env ids w = updatePlaylistData env (reordered ids cur) w1
  /\ Permutation (map id_flag (reordered ids cur)) (map id_flag cur)
  /\ (ids = map songId cur ->
      map order cur = map Z.of_nat (seq 0 (List.length cur)) ->
      reordered ids cur = cur).
Proof.
  intros Hread Hnd Hperm.
  split; [now apply reorderPlaylist_step |].
  split.
  - rewrite reordered_id_flags.
    assert (Hcur : map id_flag cur
                   = map (fun s => (s, match find (fun item => songId item =? s) cur with
                                       | Some item => selected item
                                       | None => true
                                       end)) (map songId cur)).
    { rewrite map_map. apply map_ext_in. intros item Hin.
      now rewrite (find_present cur item Hnd Hin). }
    rewrite Hcur. now apply Permutation_map.
  - intros -> Hord. unfold reordered, mapi. rewrite mapi_from_of_map.
    rewrite (mapi_from_ext_in _ renumber).
    + now apply renumber_fixed.
    + intros item j Hin. cbn beta. now rewrite (find_present cur item Hnd Hin).
Qed.

Lemma reorderPlaylist_rearranges_witness :
  reorderPlaylist (sheets_env "k") ["c"; "a"; "b"] world_abc
  = updatePlaylistData (sheets_env "k") (reordered ["c"; "a"; "b"] items_abc) world_abc_read
  /\ Permutation (map id_flag (reordered ["c"; "a"; "b"] items_abc)) (map id_flag items_abc).
Proof.
  destruct (reorderPlaylist_rearranges (sheets_env "k") ["c"; "a"; "b"]
              world_abc world_abc_read items_abc) as (Hstep & Hperm & _).
  - reflexivity.
  - repeat constructor; simpl; intuition discriminate.
  - simpl. apply perm_trans with ["a"; "c"; "b"]; [apply perm_swap |].
    apply perm_skip, perm_swap.
  - split; assumption.
Defined.

(** ** The calls of a toggle *)

(** X13. With the gate ready, a toggle that flips an unselected entry makes
    two calls, the read and the write; a toggle that removes or adds makes
    three, two reads and the write.  Each call begins at least the minimum
    interval after the one before it, and the first at least that long after
    the time the limiter showed. *)
Theorem toggleSongSelection_calls (env : Env) (s : string) (w : World) :
  isGapiReady (auth w) = true ->
  exists token t1 t2 body,
    accessToken (auth w) = Some token
    /\ (lastRequestTime w + RATE_LIMIT_DELAY <= t1)%Z
    /\ (t1 + RATE_LIMIT_DELAY <= t2)%Z
    /\ match find (fun item => songId item =? s)
               (read_result (fst (backend env (read_request env) (sheet w)))) with
       | Some existingItem =>
           if selected existingItem
           then exists t3,
                  (t2 + RATE_LIMIT_DELAY <= t3)%Z
                  /\ requests (snd (toggleSongSelection env s w))
                     = requests w ++ [(t1, read_request env); (t2, read_request env);
                                      (t3, write_request token body)]
           else requests (snd (toggleSongSelection env s w))
                = requests w ++ [(t1, read_request env); (t2, write_request token body)]
       | None =>
           exists t3,
             (t2 + RATE_LIMIT_DELAY <= t3)%Z
             /\ requests (snd (toggleSongSelection env s w))
                = requests w ++ [(t1, read_request env); (t2, read_request env);
                                 (t3, write_request token body)]
       end.
Proof.
  intros Hready. destruct (isGapiReady_token _ Hready) as (token & Htok & _).
  set (w1 := after_call env (read_request env) w).
  set (w2 := after_call env (read_request env) w1).
  pose proof (getPlaylistData_run env w) as Hread. fold w1 in Hread.
  pose proof (getPlaylistData_run env w1) as Hread1. fold w2 in Hread1.
  rewrite (toggleSongSelection_step _ s _ _ _ Hread).
  pose proof (at_call_waits w) as Ht1.
  pose proof (at_call_waits w1) as Ht2.
  pose proof (at_call_waits w2) as Ht3.
  change (lastRequestTime w1) with (Date_now (at_call w)) in Ht2.
  change (lastRequestTime w2) with (Date_now (at_call w1)) in Ht3.
  assert (Hthree : forall items,
             requests (snd (updatePlaylistData env items w2))
             = requests w ++ [(Date_now (at_call w), read_request env);
                              (Date_now (at_call w1), read_request env);
                              (Date_now (at_call w2),
                               write_request token (values_of_items items))]).
  { intros items.
    rewrite (updatePlaylistData_run env items w2 token Hready Htok). cbn [snd].
    rewrite after_call_requests. unfold w2 at 1. rewrite after_call_requests.
    unfold w1 at 1. rewrite after_call_requests. now rewrite <- !app_assoc. }
  exists token, (Date_now (at_call w)), (Date_now (at_call w1)).
  destruct (find _ _) as [existingItem |].
  - destruct (selected existingItem).
    + rewrite (removeSongFromPlaylist_step _ s _ _ _ Hread1).
      eexists. repeat split; try assumption.
      exists (Date_now (at_call w2)). split; [exact Ht3 | apply Hthree].
    + eexists. repeat split; try assumption.
      rewrite (updatePlaylistData_run env _ w1 token Hready Htok). cbn [snd].
      rewrite after_call_requests. unfold w1 at 1. rewrite after_call_requests.
      now rewrite <- app_assoc.
  - rewrite (addSongToPlaylist_step _ s _ _ _ Hread1).
    eexists. repeat split; try assumption.
    exists (Date_now (at_call w2)). split; [exact Ht3 | apply Hthree].
Qed.

Lemma toggleSongSelection_calls_witness :
  exists token t1 t2 body t3,
    accessToken (auth world_abc) = Some token
    /\ (t2 + RATE_LIMIT_DELAY <= t3)%Z
    /\ requests (snd (toggleSongSelection (sheets_env "k") "a" world_abc))
       = requests world_abc
         ++ [(t1, read_request (sheets_env "k")); (t2, read_request (sheets_env "k"));
             (t3, write_request token body)].
Proof.
  destruct (toggleSongSelection_calls (sheets_env "k") "a" world_abc eq_refl)
    as (token & t1 & t2 & body & Htok & _ & _ & t3 & Ht3 & Hlog).
  exists token, t1, t2, body, t3. auto.
Defined.

Lemma one_at_a_time_spaced_witness :
  exists l',
    EventLoop.run EventLoop.loaded
      [EventLoop.Call 0 5000; EventLoop.Call 1 5100; EventLoop.Fire 1 6000;
       EventLoop.Call 2 6500; EventLoop.Fire 2 7000] = Some l'
    /\ EventLoop.spaced (EventLoop.started l').
Proof.
  apply (one_at_a_time_spaced
           [EventLoop.Call 0 5000; EventLoop.Call 1 5100; EventLoop.Fire 1 6000;
            EventLoop.Call 2 6500; EventLoop.Fire 2 7000]).
  reflexivity.
Defined.

(** ** Signing out *)

(** X15. Signing out clears the user and the token whatever the state was,
    also when the promise is rejected: afterwards nobody is signed in, the
    gate is not ready, and the Writer refuses every write at once.  The
    token that was held is never handed to [revoke]: the variable has been
    cleared by then, so the call, when it is made, carries [null]. *)
Theorem signOut_clears_session (m : AuthModule) :
  let m' := snd (fst (signOut m)) in
  let calls := snd (signOut m) in
  currentUser (vars m') = None
  /\ accessToken (vars m') = None
  /\ isInitialized (vars m') = isInitialized (vars m)
  /\ isSignedIn (vars m') = false
  /\ isGapiReady (vars m') = false
  /\ (forall token, In (Revoke token) calls -> token = None)
  /\ (forall env playlistItems w,
        updatePlaylistData env playlistItems (with_auth (vars m') w)
        = (Thrown Unauthenticated, with_auth (vars m') w)).
Proof.
  assert (Hvars : vars (snd (fst (signOut m)))
                  = mkAuthState (isInitialized (vars m)) None None).
  { unfold signOut. destruct (tokenClient m), (google_loaded m); reflexivity. }
  cbn zeta. rewrite Hvars. cbn [currentUser accessToken isInitialized isSignedIn].
  assert (Hgate : isGapiReady (mkAuthState (isInitialized (vars m)) None None) = false).
  { unfold isGapiReady. cbn [currentUser]. apply andb_false_r. }
  repeat split; try reflexivity.
  - exact Hgate.
  - intros token Hin. unfold signOut in Hin.
    destruct (tokenClient m), (google_loaded m), (authStateCallback m);
      cbn in Hin; intuition (try discriminate; congruence).
  - intros env playlistItems w. unfold updatePlaylistData.
    cbn [with_auth auth]. now rewrite Hgate.
Qed.

(** ** Moving a song in the page *)

Lemma firstn_length_app {A} (l1 l2 : list A) : firstn (List.length l1) (l1 ++ l2) = l1.
Proof. induction l1 as [| x l1 IH]; cbn; [now destruct l2 | now rewrite IH]. Qed.

Lemma skipn_length_app {A} (l1 l2 : list A) : skipn (List.length l1) (l1 ++ l2) = l2.
Proof. induction l1 as [| x l1 IH]; cbn; [reflexivity | exact IH]. Qed.

Lemma splice_start_inside (n len : nat) :
  n <= len -> App.splice_start (Z.of_nat n) len = n.
Proof.
  intros Hle. unfold App.splice_start.
  destruct (Z.of_nat n <? 0)%Z eqn:E; [apply Z.ltb_lt in E; lia |].
  rewrite Nat2Z.id. now apply Nat.min_l.
Qed.

Lemma splice_delete1_at {A} (before : list A) x after :
  App.splice_delete1 (Z.of_nat (List.length before)) (before ++ x :: after)
  = ([x], before ++ after).
Proof.
  unfold App.splice_delete1.
  rewrite splice_start_inside by (rewrite length_app; lia).
  rewrite firstn_length_app, skipn_length_app. cbn [firstn]. f_equal. f_equal.
  replace (S (List.length before)) with (List.length (before ++ [x]))
    by (rewrite length_app; cbn; lia).
  replace (before ++ x :: after) with ((before ++ [x]) ++ after)
    by (now rewrite <- app_assoc).
  apply skipn_length_app.
Qed.

Lemma splice_insert_at {A} (before : list A) x after :
  App.splice_insert (Z.of_nat (List.length before)) x (before ++ after)
  = before ++ x :: after.
Proof.
  unfold App.splice_insert.
  rewrite splice_start_inside by (rewrite length_app; lia).
  now rewrite firstn_length_app, skipn_length_app.
Qed.

Lemma findIndex_from_split before song after k :
  (forall x, In x before -> App.id x <> App.id song) ->
  App.findIndex_from (fun s => App.id s =? App.id song) (before ++ song :: after) k
  = (k + Z.of_nat (List.length before))%Z.
Proof.
  revert k. induction before as [| x before IH]; intros k Hb.
  - cbn. rewrite String.eqb_refl. lia.
  - cbn [app App.findIndex_from List.length].
    destruct (App.id x =? App.id song) eqn:E.
    + apply String.eqb_eq in E. exfalso. apply (Hb x); [now left | exact E].
    + rewrite IH; [lia |]. intros y Hy. apply Hb. now right.
Qed.

Lemma shown_before_differs before song after :
  NoDup (map App.id (before ++ song :: after)) ->
  forall x, In x before -> App.id x <> App.id song.
Proof.
  intros Hnd x Hx E. rewrite map_app in Hnd. cbn [map] in Hnd.
  apply NoDup_remove_2 in Hnd. apply Hnd, in_or_app. left.
  rewrite <- E. now apply in_map.
Qed.

Lemma move_up_swaps before a b after :
  NoDup (map App.id (before ++ a :: b :: after)) ->
  App.reorderedSongIds (before ++ a :: b :: after) (App.id b) App.up
  = App.Send (map App.id (before ++ b :: a :: after)).
Proof.
  intros Hnd. unfold App.reorderedSongIds, App.findIndex.
  replace (before ++ a :: b :: after) with ((before ++ [a]) ++ b :: after) in *
    by (now rewrite <- app_assoc).
  rewrite (findIndex_from_split _ _ _ _ (shown_before_differs _ _ _ Hnd)).
  rewrite Z.add_0_l.
  destruct (Z.of_nat (List.length (before ++ [a])) =? 0)%Z eqn:E.
  { apply Z.eqb_eq in E. rewrite length_app in E. cbn in E. lia. }
  rewrite splice_delete1_at.
  replace (Z.of_nat (List.length (before ++ [a])) - 1)%Z
    with (Z.of_nat (List.length before)) by (rewrite length_app; cbn; lia).
  rewrite <- app_assoc. cbn [app]. now rewrite splice_insert_at.
Qed.

Lemma move_down_swaps before a b after :
  NoDup (map App.id (before ++ a :: b :: after)) ->
  App.reorderedSongIds (before ++ a :: b :: after) (App.id a) App.down
  = App.Send (map App.id (before ++ b :: a :: after)).
Proof.
  intros Hnd. unfold App.reorderedSongIds, App.findIndex.
  rewrite (findIndex_from_split _ _ _ _ (shown_before_differs _ _ _ Hnd)).
  rewrite Z.add_0_l.
  destruct (Z.of_nat (List.length before)
            =? Z.of_nat (List.length (before ++ a :: b :: after)) - 1)%Z eqn:E.
  { apply Z.eqb_eq in E. rewrite length_app in E. cbn in E. lia. }
  rewrite splice_delete1_at.
  replace (Z.of_nat (List.length before) + 1)%Z
    with (Z.of_nat (List.length (before ++ [b]))) by (rewrite length_app; cbn; lia).
  replace (before ++ b :: after) with ((before ++ [b]) ++ after)
    by (now rewrite <- app_assoc).
  rewrite splice_insert_at. now rewrite <- app_assoc.
Qed.

(** X16. In a shown list with distinct ids, moving a song up hands to the
    reorder the shown ids with that song and the one before it exchanged,
    and moving a song down the shown ids with that song and the one after it
    exchanged; every other id keeps its place. *)
Theorem moveSong_exchanges_neighbours (before : list App.Song) (a b : App.Song)
  (after : list App.Song) :
  NoDup (map App.id (before ++ a :: b :: after)) ->
  App.reorderedSongIds (before ++ a :: b :: after) (App.id b) App.up
  = App.Send (map App.id before ++ App.id b :: App.id a :: map App.id after)
  /\ App.reorderedSongIds (before ++ a :: b :: after) (App.id a) App.down
     = App.Send (map App.id before ++ App.id b :: App.id a :: map App.id after).
Proof.
  intros Hnd.
  rewrite (move_up_swaps _ _ _ _ Hnd), (move_down_swaps _ _ _ _ Hnd).
  rewrite map_app. cbn [map]. auto.
Qed.

Lemma moveSong_exchanges_neighbours_witness :
  App.reorderedSongIds shown_abc "b" App.up = App.Send ["b"; "a"; "c"]
  /\ App.reorderedSongIds shown_abc "a" App.down = App.Send ["b"; "a"; "c"].
Proof.
  apply (moveSong_exchanges_neighbours [] (song_of "a" None) (song_of "b" (Some 1%Z))
           [song_of "c" (Some 2%Z)]).
  repeat constructor; simpl; intuition discriminate.
Defined.

(** X17. In a shown list with distinct ids the first song cannot be moved up
    and the last cannot be moved down: [moveSong] returns without handing
    anything to the reorder. *)
Theorem moveSong_stays_at_the_ends (shown : list App.Song) :
  NoDup (map App.id shown) ->
  (forall song after, shown = song :: after ->
     App.reorderedSongIds shown (App.id song) App.up = App.Stay)
  /\ (forall before song, shown = before ++ [song] ->
     App.reorderedSongIds shown (App.id song) App.down = App.Stay).
Proof.
  intros Hnd. split.
  - intros song after ->. unfold App.reorderedSongIds, App.findIndex.
    cbn [App.findIndex_from]. now rewrite String.eqb_refl.
  - intros before song ->. unfold App.reorderedSongIds, App.findIndex.
    rewrite (findIndex_from_split _ _ _ _ (shown_before_differs _ _ _ Hnd)).
    rewrite length_app. cbn [List.length].
    replace (0 + Z.of_nat (List.length before))%Z
      with (Z.of_nat (List.length before + 1) - 1)%Z by lia.
    now rewrite Z.eqb_refl.
Qed.

Lemma moveSong_stays_at_the_ends_witness :
  App.reorderedSongIds shown_abc "a" App.up = App.Stay
  /\ App.reorderedSongIds shown_abc "c" App.down = App.Stay.
Proof.
  destruct (moveSong_stays_at_the_ends shown_abc) as [Hup Hdown].
  - repeat constructor; simpl; intuition discriminate.
  - split.
    + apply (Hup (song_of "a" None) [song_of "b" (Some 1%Z); song_of "c" (Some 2%Z)]).
      reflexivity.
    + apply (Hdown [song_of "a" None; song_of "b" (Some 1%Z)] (song_of "c" (Some 2%Z))).
      reflexivity.
Defined.

(** X18. Moving a song up and then, in the list shown with the ids so
    exchanged, moving it down again hands to the reorder the ids in their
    first sequence. *)
Theorem moveSong_up_then_down (before : list App.Song) (a b : App.Song)
  (after shown' : list App.Song) :
  NoDup (map App.id (before ++ a :: b :: after)) ->
  App.reorderedSongIds (before ++ a :: b :: after) (App.id b) App.up
  = App.Send (map App.id shown') ->
  App.reorderedSongIds shown' (App.id b) App.down
  = App.Send (map App.id (before ++ a :: b :: after)).
Proof.
  intros Hnd Hup. rewrite (move_up_swaps _ _ _ _ Hnd) in Hup.
  injection Hup as Hids. symmetry in Hids.
  rewrite map_app in Hids. cbn [map] in Hids.
  apply map_eq_app in Hids. destruct Hids as (before' & rest & -> & Hbefore & Hrest).
  apply map_eq_cons in Hrest. destruct Hrest as (b' & rest' & -> & Hb & Hrest).
  apply map_eq_cons in Hrest. destruct Hrest as (a' & after' & -> & Ha & Hafter).
  assert (Hnd' : NoDup (map App.id (before' ++ b' :: a' :: after'))).
  { rewrite map_app. cbn [map]. rewrite Hbefore, Hb, Ha, Hafter.
    rewrite map_app in Hnd. cbn [map] in Hnd.
    eapply Permutation_NoDup; [| exact Hnd].
    apply Permutation_app_head, perm_swap. }
  rewrite <- Hb. rewrite (move_down_swaps _ _ _ _ Hnd').
  f_equal. rewrite !map_app. cbn [map]. now rewrite Hbefore, Hb, Ha, Hafter.
Qed.

Lemma moveSong_up_then_down_witness :
  App.reorderedSongIds
    [song_of "b" (Some 1%Z); song_of "a" None; song_of "c" (Some 2%Z)] "b" App.down
  = App.Send ["a"; "b"; "c"].
Proof.
  apply (moveSong_up_then_down [] (song_of "a" None) (song_of "b" (Some 1%Z))
           [song_of "c" (Some 2%Z)]
           [song_of "b" (Some 1%Z); song_of "a" None; song_of "c" (Some 2%Z)]).
  - repeat constructor; simpl; intuition discriminate.
  - reflexivity.
Defined.

(** ** The playlist shown in the page *)

Lemma insert_by_key_perm x l : Permutation (x :: l) (App.insert_by_key x l).
Proof.
  induction l as [| y l IH]; cbn [App.insert_by_key]; [reflexivity |].
  destruct (App.sort_key x <=? App.sort_key y)%Z; [reflexivity |].
  rewrite perm_swap. now apply perm_skip.
Qed.

Lemma sort_by_key_perm l : Permutation l (App.sort_by_key l).
Proof.
  induction l as [| x l IH]; cbn [App.sort_by_key]; [reflexivity |].
  rewrite <- insert_by_key_perm. now apply perm_skip.
Qed.

Lemma insert_by_key_sorted x l :
  Sorted (fun a b => (App.sort_key a <= App.sort_key b)%Z) l ->
  Sorted (fun a b => (App.sort_key a <= App.sort_key b)%Z) (App.insert_by_key x l).
Proof.
  induction l as [| y l IH]; intros Hs; cbn [App.insert_by_key].
  - repeat constructor.
  - destruct (App.sort_key x <=? App.sort_key y)%Z eqn:E.
    + constructor; [exact Hs |]. constructor. lia.
    + inversion Hs as [| ? ? Hs' Hhd]; subst.
      constructor; [now apply IH |].
      destruct l as [| z l]; cbn [App.insert_by_key].
      * constructor. lia.
      * destruct (App.sort_key x <=? App.sort_key z)%Z; constructor.
        -- lia.
        -- inversion Hhd; subst. assumption.
Qed.

Lemma sort_by_key_sorted l :
  StronglySorted (fun a b => (App.sort_key a <= App.sort_key b)%Z) (App.sort_by_key l).
Proof.
  apply Sorted_StronglySorted; [intros x y z; apply Z.le_trans |].
  induction l as [| x l IH]; cbn [App.sort_by_key]; [constructor |].
  now apply insert_by_key_sorted.
Qed.

Lemma StronglySorted_keys {A} (f g : A -> Z) l :
  StronglySorted (fun a b => (f a <= f b)%Z) l ->
  (forall x, In x l -> f x = g x) ->
  StronglySorted (fun a b => (g a <= g b)%Z) l.
Proof.
  induction 1 as [| a l Hs IH Ha]; intros Heq; constructor.
  - apply IH. intros x Hx. apply Heq. now right.
  - rewrite Forall_forall in *. intros x Hx.
    rewrite <- (Heq a (or_introl eq_refl)), <- (Heq x (or_intror Hx)). now apply Ha.
Qed.

Lemma sort_key_merged playlist song :
  App.sort_key (App.merged playlist song)
  = App.entry_order playlist (App.merged playlist song).
Proof.
  unfold App.sort_key, App.entry_order, App.merged. cbn [App.playlistOrder App.id].
  destruct (find _ playlist) as [p |]; [| reflexivity].
  destruct (order p =? 0)%Z eqn:E; [| reflexivity].
  apply Z.eqb_eq in E. now rewrite E.
Qed.

(** X19. The songs shown as the playlist, after the page has merged the
    fetched playlist into its songs, are exactly the songs whose entry (the
    first with their id) is selected, in ascending [order] of those entries.
    This holds although the song of the entry with order 0 is given no
    position at all ([playlistOrder] is [null], the number 0 being falsy):
    the sort reads a missing position as 0. *)
Theorem selectedSongs_follow_the_sheet
  (playlist : list PlaylistItem) (songs : list App.Song) :
  StronglySorted
    (fun a b => (App.entry_order playlist a <= App.entry_order playlist b)%Z)
    (App.selectedSongs (map (App.merged playlist) songs))
  /\ Permutation (App.selectedSongs (map (App.merged playlist) songs))
                 (filter App.isSelected (map (App.merged playlist) songs))
  /\ (forall song p,
        find (fun p => songId p =? App.id song) playlist = Some p ->
        App.isSelected (App.merged playlist song) = selected p
        /\ (order p = 0%Z -> App.playlistOrder (App.merged playlist song) = None)
        /\ (order p <> 0%Z ->
            App.playlistOrder (App.merged playlist song) = Some (order p)))
  /\ (forall song,
        find (fun p => songId p =? App.id song) playlist = None ->
        App.isSelected (App.merged playlist song) = false).
Proof.
  split; [| split; [| split]].
  - unfold App.selectedSongs.
    apply (StronglySorted_keys App.sort_key); [apply sort_by_key_sorted |].
    intros x Hx.
    apply (Permutation_in _ (Permutation_sym (sort_by_key_perm _))) in Hx.
    apply filter_In in Hx. destruct Hx as [Hx _].
    apply in_map_iff in Hx. destruct Hx as (song & <- & _).
    apply sort_key_merged.
  - unfold App.selectedSongs. apply Permutation_sym, sort_by_key_perm.
  - intros song p Hfind. unfold App.merged.
    cbn [App.isSelected App.playlistOrder]. rewrite Hfind.
    split; [reflexivity |]. split.
    + intros ->. reflexivity.
    + intros Hne. apply Z.eqb_neq in Hne. now rewrite Hne.
  - intros song Hfind. unfold App.merged. cbn [App.isSelected]. now rewrite Hfind.
Qed.

(** ** What a move hands to the reorder *)

Lemma findIndex_from_range p l k :
  App.findIndex_from p l k = (-1)%Z
  \/ (k <= App.findIndex_from p l k < k + Z.of_nat (List.length l))%Z.
Proof.
  revert k. induction l as [| x l IH]; intros k; cbn [App.findIndex_from List.length].
  - now left.
  - destruct (p x); [right; lia |].
    destruct (IH (k + 1)%Z) as [H | H]; [now left | right; lia].
Qed.

Lemma skipn_succ {A} i (l : list A) : skipn (S i) l = tl (skipn i l).
Proof.
  revert l. induction i as [| i IH]; intros l; [now destruct l |].
  destruct l as [| x l]; [reflexivity |]. cbn [skipn]. apply IH.
Qed.

Lemma splice_start_le start len : App.splice_start start len <= len.
Proof.
  unfold App.splice_start. destruct (start <? 0)%Z eqn:E.
  - apply Z.ltb_lt in E. lia.
  - apply Nat.le_min_r.
Qed.

Lemma splice_insert_perm {A} start (x : A) l :
  Permutation (x :: l) (App.splice_insert start x l).
Proof.
  unfold App.splice_insert.
  rewrite <- (firstn_skipn (App.splice_start start (List.length l)) l) at 1.
  apply Permutation_middle.
Qed.

(** X20. Whatever id and direction [moveSong] is given, the ids it hands to
    the reorder are the ids of the shown songs in some sequence: none is
    added and none is left out, so a playlist entry that is not shown (an
    unselected one) is not among them.  The one case in which the id list
    cannot be built is a move up with nothing shown. *)
Theorem moveSong_sends_the_shown_ids
  (shown : list App.Song) (s : string) (direction : App.Direction) :
  match App.reorderedSongIds shown s direction with
  | App.Stay => True
  | App.Send ids => Permutation ids (map App.id shown)
  | App.Crash => shown = [] /\ direction = App.up
  end.
Proof.
  unfold App.reorderedSongIds.
  set (currentIndex := App.findIndex (fun x => App.id x =? s) shown).
  destruct (match direction with
            | App.up => (currentIndex =? 0)%Z
            | App.down => (currentIndex =? Z.of_nat (List.length shown) - 1)%Z
            end) eqn:Hend; [exact I |].
  unfold App.splice_delete1.
  set (i := App.splice_start currentIndex (List.length shown)).
  destruct (skipn i shown) as [| movedSong rest] eqn:Hskip; cbn [firstn].
  - (* nothing to delete: the position is the end of the array *)
    assert (Hlen : List.length shown <= i).
    { apply (f_equal (@List.length _)) in Hskip. rewrite length_skipn in Hskip.
      cbn in Hskip. lia. }
    destruct (findIndex_from_range (fun x => App.id x =? s) shown 0) as [Hnone | Hin].
    + fold (App.findIndex (fun x => App.id x =? s) shown) in Hnone.
      fold currentIndex in Hnone.
      assert (Hempty : List.length shown = 0).
      { unfold i, App.splice_start in Hlen. rewrite Hnone in Hlen. cbn in Hlen. lia. }
      destruct shown; [| discriminate]. split; [reflexivity |].
      destruct direction; [reflexivity |].
      rewrite Hnone in Hend. cbn in Hend. discriminate.
    + fold (App.findIndex (fun x => App.id x =? s) shown) in Hin.
      fold currentIndex in Hin.
      exfalso. unfold i, App.splice_start in Hlen.
      destruct (currentIndex <? 0)%Z eqn:E; [apply Z.ltb_lt in E; lia |].
      assert (Z.to_nat currentIndex < List.length shown) by lia.
      rewrite Nat.min_l in Hlen by lia. lia.
  - apply Permutation_map.
    rewrite <- splice_insert_perm.
    rewrite skipn_succ, Hskip. cbn [tl].
    apply perm_trans with (firstn i shown ++ movedSong :: rest).
    + apply Permutation_middle.
    + rewrite <- Hskip, firstn_skipn. reflexivity.
Qed.
